(** * FitBert: ranking options for a blank in a sentence

    A shallow embedding of [fitbert/fitb.py] (class [FitBertT]) and the
    properties of its option-ranking engine.

    - Python [str] values are [string]s (characters are code points below
      256); the [str] methods the class uses are in [Module Str].
    - PyFunctional's [seq] operations are in [Module Seq].
    - The tokenizer and the masked language model are an [Oracle] record;
      every call of the model is recorded in a log, and Python exceptions
      are the [Raise] results of the monad [M]. *)

From Stdlib Require Import Ascii ZArith Lia Sorted.
From stdpp Require Import base option list strings gmap.

#[local] Set Warnings "-clear-no-such-hyp".

(** ** Python [str] methods *)

Module Str.

(** [str.isspace] on one character, for code points below 256:
    TAB, LF, VT, FF, CR, FS, GS, RS, US, SPACE, NEL and NBSP. *)
Definition is_space (c : ascii) : bool :=
  let n := nat_of_ascii c in
  ((9 <=? n) && (n <=? 13)) || ((28 <=? n) && (n <=? 32))
  || (n =? 133) || (n =? 160).

Definition is_empty (s : string) : bool :=
  match s with EmptyString => true | String _ _ => false end.

(** A finished piece is kept only when it is not empty. *)
Definition push_word (w : string) (ws : list string) : list string :=
  if is_empty w then ws else w :: ws.

(** [split_go s] is the piece that starts [s] (up to the first white
    space) and the words after it. *)
Fixpoint split_go (s : string) : string * list string :=
  match s with
  | EmptyString => (EmptyString, [])
  | String c s' =>
      let '(w, ws) := split_go s' in
      if is_space c then (EmptyString, push_word w ws) else (String c w, ws)
  end.

(** [s.split()]: the maximal runs of characters that are not white space. *)
Definition split (s : string) : list string :=
  let '(w, ws) := split_go s in push_word w ws.

Fixpoint lstrip (s : string) : string :=
  match s with
  | EmptyString => EmptyString
  | String c s' => if is_space c then lstrip s' else s
  end.

Fixpoint rstrip (s : string) : string :=
  match s with
  | EmptyString => EmptyString
  | String c s' =>
      let r := rstrip s' in
      if is_space c && is_empty r then EmptyString else String c r
  end.

(** [s.strip()] *)
Definition strip (s : string) : string := lstrip (rstrip s).

(** [sep.join(l)] *)
Fixpoint join (sep : string) (l : list string) : string :=
  match l with
  | [] => EmptyString
  | [x] => x
  | x :: l' => x +:+ sep +:+ join sep l'
  end.

(** [old] is empty: [new] goes before every character and at the end. *)
Fixpoint replace_empty (new s : string) : string :=
  match s with
  | EmptyString => new
  | String c s' => new +:+ String c (replace_empty new s')
  end.

(** The scan of [s.replace(old, new)] for a non-empty [old]: occurrences
    are found left to right and do not overlap; [skip] counts the
    characters of the occurrence just replaced that are still to pass. *)
Fixpoint replace_go (old new : string) (skip : nat) (s : string) : string :=
  match s with
  | EmptyString => EmptyString
  | String c s' =>
      match skip with
      | S k => replace_go old new k s'
      | O =>
          if String.prefix old s
          then new +:+ replace_go old new (String.length old - 1) s'
          else String c (replace_go old new 0 s')
      end
  end.

(** [s.replace(old, new)] *)
Definition replace (old new s : string) : string :=
  if is_empty old then replace_empty new s else replace_go old new 0 s.

(** The scan of [s.split(sep)]: the piece that starts [s] and the pieces
    after the next separator. *)
Fixpoint split_on_go (sep : string) (skip : nat) (s : string)
  : string * list string :=
  match s with
  | EmptyString => (EmptyString, [])
  | String c s' =>
      match skip with
      | S k => split_on_go sep k s'
      | O =>
          if String.prefix sep s
          then let '(w, ws) := split_on_go sep (String.length sep - 1) s' in
               (EmptyString, w :: ws)
          else let '(w, ws) := split_on_go sep 0 s' in (String c w, ws)
      end
  end.

(** [s.split(sep)]; Python raises [ValueError] for an empty separator,
    which is [None] here. *)
Definition split_on (sep s : string) : option (list string) :=
  if is_empty sep then None
  else let '(w, ws) := split_on_go sep 0 s in Some (w :: ws).

(** [s.count(sub)] for a non-empty [sub]. *)
Fixpoint count_go (sub : string) (skip : nat) (s : string) : nat :=
  match s with
  | EmptyString => 0
  | String c s' =>
      match skip with
      | S k => count_go sub k s'
      | O =>
          if String.prefix sub s
          then S (count_go sub (String.length sub - 1) s')
          else count_go sub 0 s'
      end
  end.

Definition count (sub s : string) : nat :=
  if is_empty sub then S (String.length s) else count_go sub 0 s.

End Str.

(** ** PyFunctional [seq] operations and Python builtins on sequences *)

Module Seq.

Section Distinct.
Context `{Countable A}.

(** The generator behind [seq(l).distinct()]: an element is yielded
    when it is not yet in the set [seen], and is then added to it. *)
Fixpoint distinct_go (seen : gset A) (l : list A) : list A :=
  match l with
  | [] => []
  | x :: l' =>
      if decide (x ∈ seen) then distinct_go seen l'
      else x :: distinct_go ({[x]} ∪ seen) l'
  end.

Definition distinct (l : list A) : list A := distinct_go ∅ l.
End Distinct.

Section Generic.
Context {A : Type}.

(** [seq(l).take_while(p)] *)
Fixpoint take_while (p : A → bool) (l : list A) : list A :=
  match l with
  | [] => []
  | x :: l' => if p x then x :: take_while p l' else []
  end.

Definition uncons (l : list A) : option (A * list A) :=
  match l with [] => None | x :: l' => Some (x, l') end.

(** One step of every iterator of [rest]: their next elements and what
    is left of them, or [None] when one of them is exhausted. *)
Fixpoint next_all (rest : list (list A)) : option (list A * list (list A)) :=
  match rest with
  | [] => Some ([], [])
  | l :: rest' =>
      match uncons l, next_all rest' with
      | Some (x, l'), Some (xs, ls) => Some (x :: xs, l' :: ls)
      | _, _ => None
      end
  end.

(** [zip(l, *rest)]: tuples are produced until an argument runs out. *)
Fixpoint zip_rows (l : list A) (rest : list (list A)) : list (list A) :=
  match l with
  | [] => []
  | x :: l' =>
      match next_all rest with
      | Some (xs, ls) => (x :: xs) :: zip_rows l' ls
      | None => []
      end
  end.

(** [list(zip( *ls))], the rows [ls] unpacked as the arguments of [zip];
    [zip()] of no argument is empty. *)
Definition zip_star (ls : list (list A)) : list (list A) :=
  match ls with
  | [] => []
  | l :: rest => zip_rows l rest
  end.

(** [x[0]] on a tuple of [zip_star], which is never empty. *)
Definition first (d : A) (x : list A) : A := hd d x.

(** [x[a:b]] for indices that are not negative. *)
Definition slice (a b : nat) (x : list A) : list A := take (b - a) (drop a x).

Section Sorted.
Context {K : Type} (lt : K → K → bool) (key : A → K).

(** [x] stood before every element of the sorted [l]: it passes the
    elements whose key is smaller than its own. *)
Fixpoint insert_stable (x : A) (l : list A) : list A :=
  match l with
  | [] => [x]
  | y :: l' =>
      if lt (key y) (key x) then y :: insert_stable x l' else x :: y :: l'
  end.

(** A stable sort by [key], ascending, that compares with [<] only. *)
Definition sort_stable (l : list A) : list A := foldr insert_stable [] l.

(** [sorted(l, key=key, reverse=reverse)] for keys on which [<] is a
    strict weak order (numbers, no NaN): as CPython does, the list is
    reversed before and after the sort when [reverse] is set. For such keys
    a stable sort has one possible result ([stable_sort_unique] below), so
    the sorting algorithm of CPython, which is not this one, returns the
    same list. The keys the class sorts by are the [prob] of [FitBertT],
    whose [<] is a strict weak order by the laws of that record. *)
Definition sorted (reverse : bool) (l : list A) : list A :=
  if reverse then List.rev (sort_stable (List.rev l)) else sort_stable l.

(** The keys tie: neither is below the other. *)
Definition tie (a b : K) : bool := negb (lt a b) && negb (lt b a).

(** [l'] is [l] sorted by [key], highest first, by a stable sort: no
    element of [l'] stands before one with a higher key, and the elements
    of every class of tied keys are, in [l'], those of [l] in the order of
    [l]. *)
Definition stable_sort_desc (l l' : list A) : Prop :=
  (∀ p q, [p; q] `sublist_of` l' → lt (key p) (key q) = false)
  ∧ (∀ k, filter (λ x, tie (key x) k = true) l'
          = filter (λ x, tie (key x) k = true) l).
End Sorted.
End Generic.

(** [seq(l).make_string(sep)] *)
Definition make_string (sep : string) (l : list string) : string := Str.join sep l.

End Seq.

(** ** Exceptions, the model and the log of its calls *)

Inductive exn : Type :=
| ValueError     (* unpacking [pre, post] from a split of other than two parts *)
| IndexError     (* [x[0]] or [tokens[i] = ...] out of range *)
| OracleFailure. (* the model call itself fails *)

Inductive result (A : Type) : Type :=
| Ok (a : A)
| Raise (e : exn).
Arguments Ok {A} a.
Arguments Raise {A} e.

(** A call of the model is logged as the batch of id rows it receives. *)
Abbreviation batch := (list (list nat)).
Abbreviation log := (list (list (list nat))).

Definition M (A : Type) : Type := log → result A * log.

Definition ret {A} (a : A) : M A := λ l, (Ok a, l).
Definition raise {A} (e : exn) : M A := λ l, (Raise e, l).
Definition bind {A B} (m : M A) (k : A → M B) : M B :=
  λ l, match m l with
       | (Ok a, l') => k a l'
       | (Raise e, l') => (Raise e, l')
       end.

Notation "x <- m ;; k" := (bind m (λ x, k))
  (at level 100, m at next level, right associativity).

Fixpoint traverse {A B} (f : A → M B) (l : list A) : M (list B) :=
  match l with
  | [] => ret []
  | x :: l' => y <- f x ;; ys <- traverse f l' ;; ret (y :: ys)
  end.

(** ** The class [FitBertT] *)

(** The fields of [self]. [prob] is the type of the floats read from the
    model's output, with the [*] and [<] the code applies to them. These
    floats are probabilities, numbers and never NaN: their [<] is a strict
    weak order, which the two laws [prob_ltb_asym] and [prob_ltb_neg_trans]
    say; the class sorts by nothing else.
    [convert_tokens_to_ids] looks every token up in the vocabulary [vocab].
    [bert_softmax b] is [self.softmax(self.bert(tens))] for the tensor of
    the rows [b]; the result is read as [probs[i][j][x]]. *)
Record FitBertT : Type := {
  mask_token : string;
  prob : Type;
  prob_one : prob;
  prob_mul : prob → prob → prob;
  prob_ltb : prob → prob → bool;
  prob_ltb_asym : ∀ a b, prob_ltb a b = true → prob_ltb b a = false;
  prob_ltb_neg_trans :
    ∀ a b c, prob_ltb a b = false → prob_ltb b c = false → prob_ltb a c = false;
  tokenize : string → list string;
  vocab : string → nat;
  bert_softmax : batch → option (nat → nat → nat → prob);
}.

Section FitBertT.
Variable self : FitBertT.

Definition convert_tokens_to_ids (tokens : list string) : list nat :=
  vocab self <$> tokens.

(** [probs = self.softmax(self.bert(tens))] *)
Definition call_model (b : batch) : M (nat → nat → nat → prob self) :=
  λ l, match bert_softmax self b with
       | Some probs => (Ok probs, l ++ [b])
       | None => (Raise OracleFailure, l ++ [b])
       end.

Definition is_multi (options : list string) : bool :=
  negb (Nat.eqb (length (filter (λ x, length (Str.split x) ≠ 1) options)) 0).

Definition tokens_to_masked_ids (tokens : list string) (mask_ind : nat)
  : M (list nat) :=
  if decide (mask_ind < length tokens) then
    let masked_tokens := <[mask_ind := "[MASK]"]> tokens in
    let masked_tokens := ["[CLS]"] ++ masked_tokens ++ ["[SEP]"] in
    ret (convert_tokens_to_ids masked_tokens)
  else raise IndexError.

Definition get_sentence_probability (sent : string) : M (prob self) :=
  let tokens := tokenize self sent in
  input_ids <- traverse (λ '(i, _), tokens_to_masked_ids tokens i)
                   (imap pair tokens) ;;
  probs <- call_model input_ids ;;
  let tokens_ids := convert_tokens_to_ids tokens in
  ret (foldl (prob_mul self) (prob_one self)
             (imap (λ i x, probs i (i + 1) x) tokens_ids)).

(** The score of one word in [rank_single]: the probability, at the
    masked position, of the first id of the word. *)
Definition word_score (probs : nat → nat → nat → prob self)
    (target_idx : nat) (x : string) : M (prob self) :=
  match convert_tokens_to_ids (tokenize self x) with
  | [] => raise IndexError
  | id :: _ => ret (probs 0 target_idx id)
  end.

(** [.zip(words).sorted(key=lambda x: x[0], reverse=True).map(lambda x: x[1])] *)
Definition by_score (scores : list (prob self)) (words : list string)
  : list string :=
  snd <$> Seq.sorted (prob_ltb self) fst true (zip scores words).

Definition rank_single (masked_sent : string) (words : list string)
  : M (list string) :=
  match Str.split_on (mask_token self) masked_sent with
  | Some [pre; post] =>
      let tokens := ["[CLS]"] ++ tokenize self pre in
      let target_idx := length tokens in
      let tokens := tokens ++ ["[MASK]"] in
      let tokens := tokens ++ (tokenize self post ++ ["[SEP]"]) in
      let input_ids := convert_tokens_to_ids tokens in
      probs <- call_model [input_ids] ;;
      scores <- traverse (word_score probs target_idx) words ;;
      ret (by_score scores words)
  | _ => raise ValueError
  end.

Definition rank_multi (masked_sent : string) (options : list string)
  : M (list string) :=
  scores <- traverse (λ x, get_sentence_probability
                        (Str.replace (mask_token self) x masked_sent))
                options ;;
  ret (by_score scores options).

(** [seq(x).distinct().len() == 1] *)
Definition one_value (x : list string) : bool :=
  Nat.eqb (length (Seq.distinct x)) 1.

(** The words on which the token lists [ls] agree from the front. *)
Definition common_start (ls : list (list string)) : list string :=
  Seq.first "" <$> Seq.take_while one_value (Seq.zip_star ls).

Definition simplify_options (sent : string) (options : list string)
  : list string * string * string * string :=
  let options_split := Str.split <$> options in
  let start := common_start options_split in
  let options_split_reversed :=
    (λ x, reverse (drop (length start) x)) <$> options_split in
  let end_ := common_start options_split_reversed in
  let start_words := Seq.make_string " " start in
  let end_words := Seq.make_string " " (reverse end_) in
  let options' :=
    (λ x, Str.strip (Seq.make_string " " x))
      <$> ((λ x, Seq.slice (length start) (length x - length end_) x)
             <$> options_split) in
  let sub :=
    Str.strip (Seq.make_string " " [start_words; mask_token self; end_words]) in
  let sent' := Str.replace (mask_token self) sub sent in
  (options', sent', start_words, end_words).

Definition rank (sent : string) (options : list string) : M (list string) :=
  let options := Seq.distinct options in
  if Nat.eqb (length options) 1 then ret options
  else
    let '(options, sent, start_words, end_words) :=
      simplify_options sent options in
    ranked <- (if is_multi options then rank_multi sent options
              else rank_single sent options) ;;
    ret ((λ x, Str.strip (Seq.make_string " " [start_words; x; end_words]))
           <$> ranked).

Definition fitb (sent : string) (options : list string) : M string :=
  ranked <- rank sent options ;;
  match ranked with
  | [] => raise IndexError
  | best_word :: _ => ret (Str.replace (mask_token self) best_word sent)
  end.

End FitBertT.

(** [guess_single] needs two more things of the tokenizer and of torch:
    [ids_to_tokens], the inverse vocabulary behind
    [convert_ids_to_tokens], and [argmax], which is [torch.argmax] on the
    vocabulary axis of [probs[0, target_idx]]. *)
Section GuessSingle.
Variable self : FitBertT.
Variable argmax : (nat → prob self) → nat.
Variable ids_to_tokens : nat → string.

Definition convert_ids_to_tokens (ids : list nat) : list string :=
  ids_to_tokens <$> ids.

Definition guess_single (masked_sent : string) : M string :=
  match Str.split_on (mask_token self) masked_sent with
  | Some [pre; post] =>
      let tokens := ["[CLS]"] ++ tokenize self pre in
      let target_idx := length tokens in
      let tokens := tokens ++ ["[MASK]"] in
      let tokens := tokens ++ (tokenize self post ++ ["[SEP]"]) in
      let input_ids := convert_tokens_to_ids self tokens in
      probs <- call_model self [input_ids] ;;
      let pred_idx := argmax (probs 0 target_idx) in
      match convert_ids_to_tokens [pred_idx] with
      | [] => raise IndexError
      | pred_tok :: _ => ret pred_tok
      end
  | _ => raise ValueError
  end.

End GuessSingle.

(** ** Predicates of the statements *)

(** No character of [s] is white space. *)
Fixpoint no_space (s : string) : bool :=
  match s with
  | EmptyString => true
  | String c s' => negb (Str.is_space c) && no_space s'
  end.

(** A word as [Str.split] produces them. *)
Definition Solid (w : string) : Prop :=
  Str.is_empty w = false ∧ no_space w = true.

(** A non-empty string that [strip] leaves alone on both sides. *)
Definition Trimmed (s : string) : Prop :=
  Str.is_empty s = false ∧ Str.lstrip s = s ∧ Str.rstrip s = s.

(** An option written as its words with one space between them. *)
Definition Normalised (o : string) : Prop :=
  Seq.make_string " " (Str.split o) = o.

(** The sentence contains the placeholder exactly once. *)
Definition one_placeholder (self : FitBertT) (sent : string) : Prop :=
  Str.count (mask_token self) sent = 1.

(** Two scores that compare equal: neither is below the other. *)
Definition same_score (self : FitBertT) (a b : prob self) : bool :=
  negb (prob_ltb self a b) && negb (prob_ltb self b a).

(** [p] starts every list of [ls], and is the longest list that does. *)
Definition longest_common_prefix (p : list string) (ls : list (list string))
  : Prop :=
  (∀ t, t ∈ ls → p `prefix_of` t)
  ∧ (∀ q, (∀ t, t ∈ ls → q `prefix_of` t) → q `prefix_of` p).

(** [p] ends every list of [ls], and is the longest list that does. *)
Definition longest_common_suffix (p : list string) (ls : list (list string))
  : Prop :=
  (∀ t, t ∈ ls → p `suffix_of` t)
  ∧ (∀ q, (∀ t, t ∈ ls → q `suffix_of` t) → q `suffix_of` p).

(** What [simplify_options] is to return: [start] is the longest common
    leading run of the words of the options, [end_] the longest common
    trailing run of what is left of them after [start], every simplified
    option is the words in between, joined and stripped, and the
    placeholder of the sentence goes between the two runs. *)
Definition strips_common_affixes (self : FitBertT) (sent : string)
    (options : list string) : Prop :=
  ∃ start end_ options',
    longest_common_prefix start (Str.split <$> options)
    ∧ longest_common_suffix end_
        ((λ o, drop (length start) (Str.split o)) <$> options)
    ∧ Forall2 (λ o o', ∃ mid, Str.split o = start ++ mid ++ end_
                              ∧ o' = Str.strip (Seq.make_string " " mid))
        options options'
    ∧ simplify_options self sent options
      = (options',
         Str.replace (mask_token self)
           (Str.strip (Seq.make_string " "
              [Seq.make_string " " start; mask_token self;
               Seq.make_string " " end_])) sent,
         Seq.make_string " " start,
         Seq.make_string " " end_).

(** The batch of the pseudo-likelihood: row [i] is the boundary-start
    token, the tokens with the one at [i] replaced by the mask, and the
    boundary-end token, as ids. *)
Definition masked_rows (self : FitBertT) (tokens : list string) : batch :=
  imap (λ i _, vocab self <$> ["[CLS]"] ++ <[i := "[MASK]"]> tokens ++ ["[SEP]"])
       tokens.

(** The id row of the single-token path for the text around the
    placeholder. *)
Definition single_row (self : FitBertT) (pre post : string) : list nat :=
  vocab self
    <$> ["[CLS]"] ++ tokenize self pre ++ ["[MASK]"] ++ tokenize self post
        ++ ["[SEP]"].

(** [scores] are the scores the ranker gives to [words], in order: on the
    multi-token path the probability of the sentence filled with the word,
    on the single-token path the probability of the first id of the word
    at the masked position of the one sequence the model is asked about. *)
Definition scored_by (self : FitBertT) (multi : bool) (masked_sent : string)
    (words : list string) (scores : list (prob self)) : Prop :=
  if multi then
    Forall2 (λ w s, ∃ lg lg',
               get_sentence_probability self
                 (Str.replace (mask_token self) w masked_sent) lg = (Ok s, lg'))
            words scores
  else
    ∃ pre post probs,
      Str.split_on (mask_token self) masked_sent = Some [pre; post]
      ∧ bert_softmax self [single_row self pre post] = Some probs
      ∧ Forall2 (λ w s, ∃ id ids,
                   vocab self <$> tokenize self w = id :: ids
                   ∧ s = probs 0 (S (length (tokenize self pre))) id)
                words scores.

(** The ranker [rank] chooses between by [is_multi]. *)
Definition ranker (self : FitBertT) (multi : bool)
  : string → list string → M (list string) :=
  if multi then rank_multi self else rank_single self.

(** What [rank] makes of a ranked simplified option: the common words
    put back around it. *)
Definition reattach (start_words end_words x : string) : string :=
  Str.strip (Seq.make_string " " [start_words; x; end_words]).

(** The batch [get_sentence_probability] sends for a text. *)
Definition sentence_batch (self : FitBertT) (sent : string) : list (list nat) :=
  masked_rows self (tokenize self sent).

(** [s] without its first [n] characters. *)
Fixpoint sdrop (n : nat) (s : string) : string :=
  match n, s with
  | O, _ => s
  | S _, EmptyString => EmptyString
  | S k, String _ s' => sdrop k s'
  end.

(** A small model for running the code: tokens are the white-space
    words, the id of a token is its length, and the probability of an id
    is the id itself, wherever it is read. *)
Definition toy : FitBertT := {|
  mask_token := "***mask***";
  prob := nat;
  prob_one := 1;
  prob_mul := Nat.mul;
  prob_ltb := Nat.ltb;
  prob_ltb_asym := λ a b H,
    proj2 (Nat.ltb_ge b a) (Nat.lt_le_incl a b (proj1 (Nat.ltb_lt a b) H));
  prob_ltb_neg_trans := λ a b c Hab Hbc,
    proj2 (Nat.ltb_ge a c)
      (Nat.le_trans c b a (proj1 (Nat.ltb_ge b c) Hbc)
                          (proj1 (Nat.ltb_ge a b) Hab));
  tokenize := Str.split;
  vocab := String.length;
  bert_softmax := λ _, Some (λ _ _ x, x);
|}.

(** The same model with a failure: it does not answer on a batch whose
    first row holds the id 7, that of a token of seven characters. *)
Definition flaky : FitBertT := {|
  mask_token := mask_token toy;
  prob := prob toy;
  prob_one := prob_one toy;
  prob_mul := prob_mul toy;
  prob_ltb := prob_ltb toy;
  prob_ltb_asym := prob_ltb_asym toy;
  prob_ltb_neg_trans := prob_ltb_neg_trans toy;
  tokenize := tokenize toy;
  vocab := vocab toy;
  bert_softmax := λ b,
    match b with
    | row :: _ => if bool_decide (7 ∈ row) then None else Some (λ _ _ x, x)
    | [] => Some (λ _ _ x, x)
    end;
|}.


(** ** The code on small inputs *)

Example split_example : Str.split "  to   eat " = ["to"; "eat"].
Proof. reflexivity. Qed.

Example strip_example : Str.strip "  a b  " = "a b".
Proof. reflexivity. Qed.

Example replace_example :
  Str.replace "***mask***" "to eat" "I want ***mask***." = "I want to eat.".
Proof. reflexivity. Qed.

Example split_on_example :
  Str.split_on "***mask***" "I want ***mask***." = Some ["I want "; "."].
Proof. reflexivity. Qed.

Example distinct_example :
  Seq.distinct ["a"; "b"; "a"; "c"; "b"] = ["a"; "b"; "c"].
Proof. reflexivity. Qed.

Example zip_star_example :
  Seq.zip_star [["a"; "b"; "c"]; ["a"; "d"]; ["a"; "b"; "e"]]
  = [["a"; "a"; "a"]; ["b"; "d"; "b"]].
Proof. reflexivity. Qed.

Example sorted_example :
  Seq.sorted Nat.ltb fst true [(1, "a"); (3, "b"); (1, "c"); (3, "d")]
  = [(3, "b"); (3, "d"); (1, "a"); (1, "c")].
Proof. reflexivity. Qed.

Example rank_example :
  rank toy "She likes to ***mask***." ["run"; "walk"; "jump"] []
  = (Ok ["walk"; "jump"; "run"], [[[5; 3; 5; 2; 6; 1; 5]]]).
Proof. reflexivity. Qed.

Example fitb_example :
  fitb toy "She likes to ***mask***." ["run"; "walk"; "jump"] []
  = (Ok "She likes to walk.", [[[5; 3; 5; 2; 6; 1; 5]]]).
Proof. reflexivity. Qed.

(** * Facts about the [str] methods *)

Module StrFacts.
Import Str.

Lemma sapp_nil_l s : "" +:+ s = s.
Proof. reflexivity. Qed.

Lemma sapp_cons c s t : String c s +:+ t = String c (s +:+ t).
Proof. reflexivity. Qed.

Lemma sapp_nil_r s : s +:+ "" = s.
Proof. induction s as [|c s IH]; [done|]. by rewrite sapp_cons, IH. Qed.

Lemma sapp_assoc s t u : (s +:+ t) +:+ u = s +:+ t +:+ u.
Proof. induction s as [|c s IH]; [done|]. by rewrite !sapp_cons, IH. Qed.

Lemma is_empty_true s : is_empty s = true ↔ s = "".
Proof. by destruct s. Qed.

Lemma is_empty_app_r s t : is_empty t = false → is_empty (s +:+ t) = false.
Proof. by destruct s, t. Qed.

Lemma is_empty_app_l s t : is_empty s = false → is_empty (s +:+ t) = false.
Proof. by destruct s. Qed.

Lemma lstrip_no_space s : no_space s = true → lstrip s = s.
Proof.
  destruct s as [|c s]; [done|]. simpl.
  intros [Hc _]%andb_prop. by destruct (is_space c).
Qed.

Lemma rstrip_no_space s : no_space s = true → rstrip s = s.
Proof.
  induction s as [|c s IH]; [done|]. simpl.
  intros [Hc Hs]%andb_prop. rewrite (IH Hs).
  by destruct (is_space c).
Qed.

Lemma Solid_Trimmed w : Solid w → Trimmed w.
Proof.
  intros [? ?]. split_and!; auto using lstrip_no_space, rstrip_no_space.
Qed.

Lemma split_go_solid s :
  no_space (split_go s).1 = true ∧ Forall Solid (split_go s).2.
Proof.
  induction s as [|c s [IHw IHws]]; simpl; [by split|].
  destruct (split_go s) as [w ws]; simpl in *.
  destruct (is_space c) eqn:Hc; simpl.
  - split; [done|]. unfold push_word.
    destruct (is_empty w) eqn:Hw; [done|]. by constructor.
  - by rewrite Hc, IHw.
Qed.

Lemma split_solid s : Forall Solid (split s).
Proof.
  unfold split. pose proof (split_go_solid s) as [Hw Hws].
  destruct (split_go s) as [w ws]; simpl in *. unfold push_word.
  destruct (is_empty w) eqn:He; [done|]. by constructor.
Qed.

Lemma lstrip_head s c t : lstrip s = String c t → is_space c = false.
Proof.
  induction s as [|d s IH]; [done|]. simpl.
  destruct (is_space d) eqn:Hd; [done|]. congruence.
Qed.

Lemma lstrip_app s t : Trimmed s → lstrip (s +:+ t) = s +:+ t.
Proof.
  intros (Hne & Hl & _). destruct s as [|c s]; [done|].
  apply lstrip_head in Hl. rewrite sapp_cons. simpl. by rewrite Hl.
Qed.

Lemma rstrip_app s t : Trimmed t → rstrip (s +:+ t) = s +:+ t.
Proof.
  intros (Hne & _ & Hr). induction s as [|c s IH]; [done|].
  rewrite sapp_cons. simpl. rewrite IH.
  by rewrite (is_empty_app_r s t Hne), andb_false_r.
Qed.

Lemma Trimmed_app s x t : Trimmed s → Trimmed t → Trimmed (s +:+ x +:+ t).
Proof.
  intros Hs Ht. split_and!.
  - apply is_empty_app_l, Hs.
  - by apply lstrip_app.
  - rewrite <- sapp_assoc. by apply rstrip_app.
Qed.

Lemma join_cons sep x l :
  l ≠ [] → join sep (x :: l) = x +:+ sep +:+ join sep l.
Proof. by destruct l. Qed.

Lemma join_app sep l1 l2 :
  l1 ≠ [] → l2 ≠ [] →
  join sep (l1 ++ l2) = join sep l1 +:+ sep +:+ join sep l2.
Proof.
  intros H1 H2. induction l1 as [|x l1 IH]; [done|].
  destruct l1 as [|y l1].
  - simpl app. by rewrite join_cons.
  - rewrite <- app_comm_cons, !join_cons by done.
    rewrite IH by done. by rewrite !sapp_assoc.
Qed.

Lemma join_Trimmed l : l ≠ [] → Forall Trimmed l → Trimmed (join " " l).
Proof.
  induction l as [|x l IH]; [done|]. intros _ Hall.
  apply Forall_cons in Hall as [Hx Hl].
  destruct l as [|y l]; [done|].
  rewrite join_cons by done. apply Trimmed_app; auto.
Qed.

Lemma strip_Trimmed s : Trimmed s → strip s = s.
Proof. intros (_ & Hl & Hr). unfold strip. by rewrite Hr, Hl. Qed.

Lemma strip_space_l s : strip (" " +:+ s) = strip s.
Proof.
  unfold strip. change (" " +:+ s) with (String " " s). simpl.
  by destruct (is_empty (rstrip s)) eqn:He;
    [apply is_empty_true in He as ->|].
Qed.

Lemma rstrip_space_r s : rstrip (s +:+ " ") = rstrip s.
Proof. induction s as [|c s IH]; [done|]. rewrite sapp_cons. simpl. by rewrite IH. Qed.

Lemma strip_space_r s : strip (s +:+ " ") = strip s.
Proof. unfold strip. by rewrite rstrip_space_r. Qed.

Lemma strip_join_words l : Forall Solid l → strip (join " " l) = join " " l.
Proof.
  intros Hl. destruct l as [|x l]; [done|].
  apply strip_Trimmed, join_Trimmed; [done|].
  eapply Forall_impl; [done|]. apply Solid_Trimmed.
Qed.

Lemma join_words_empty l : Forall Solid l → is_empty (join " " l) = true → l = [].
Proof.
  intros Hl He. destruct l as [|x l]; [done|].
  destruct (join_Trimmed (x :: l)) as [Hne _]; [done| |congruence].
  eapply Forall_impl; [done|]. apply Solid_Trimmed.
Qed.

(** The three parts [start_words], [x], [end_words] put together again
    give the words of the option, unless the middle part alone is empty. *)
Lemma rejoin s m e :
  Forall Solid s → Forall Solid m → Forall Solid e →
  s = [] ∨ e = [] ∨ m ≠ [] →
  strip (join " " [join " " s; join " " m; join " " e]) = join " " (s ++ m ++ e).
Proof.
  intros Hs Hm He Hcase.
  assert (HT : ∀ l, Forall Solid l → l ≠ [] → Trimmed (join " " l)).
  { intros l Hl Hne. apply join_Trimmed; [done|].
    eapply Forall_impl; [done|]. apply Solid_Trimmed. }
  change (join " " [join " " s; join " " m; join " " e])
    with (join " " s +:+ " " +:+ join " " m +:+ " " +:+ join " " e).
  destruct s as [|s0 s], m as [|m0 m], e as [|e0 e];
    try (by destruct Hcase as [?|[?|?]]);
    change (join " " []) with "";
    rewrite ?sapp_nil_l, ?sapp_nil_r, ?app_nil_l, ?app_nil_r.
  - rewrite !strip_space_l. by apply strip_Trimmed, HT.
  - rewrite strip_space_l, strip_space_r. by apply strip_Trimmed, HT.
  - rewrite strip_space_l, join_app by done.
    apply strip_Trimmed, Trimmed_app; by apply HT.
  - rewrite <- sapp_assoc, !strip_space_r. by apply strip_Trimmed, HT.
  - rewrite <- !sapp_assoc, strip_space_r, sapp_assoc, join_app by done.
    apply strip_Trimmed, Trimmed_app; by apply HT.
  - rewrite (join_app _ (s0 :: s)), (join_app _ (m0 :: m)) by done.
    apply strip_Trimmed, Trimmed_app; [by apply HT|].
    apply Trimmed_app; by apply HT.
Qed.

End StrFacts.

(** * Facts about the [seq] operations *)

Module SeqFacts.
Import Seq.

Section Distinct.
Context `{Countable A}.
Implicit Types (l : list A) (seen : gset A).

Lemma elem_of_distinct_go seen l x :
  x ∈ distinct_go seen l ↔ x ∈ l ∧ x ∉ seen.
Proof.
  revert seen. induction l as [|y l IH]; intros seen; simpl.
  - set_solver.
  - destruct (decide (y ∈ seen)).
    + rewrite IH, elem_of_cons. split; [tauto|].
      intros [[->|?] ?]; tauto.
    + rewrite !elem_of_cons, IH, elem_of_union, elem_of_singleton.
      split; [intros [->|[? ?]]; tauto|].
      destruct (decide (x = y)); tauto.
Qed.

Lemma NoDup_distinct_go seen l : NoDup (distinct_go seen l).
Proof.
  revert seen. induction l as [|y l IH]; intros seen; simpl.
  - constructor.
  - destruct (decide (y ∈ seen)); [apply IH|].
    constructor; [|apply IH]. rewrite elem_of_distinct_go. set_solver.
Qed.

Lemma distinct_go_app seen l1 l2 :
  distinct_go seen (l1 ++ l2)
  = distinct_go seen l1 ++ distinct_go (seen ∪ list_to_set l1) l2.
Proof.
  revert seen. induction l1 as [|y l1 IH]; intros seen; simpl.
  - f_equal. set_solver.
  - destruct (decide (y ∈ seen)).
    + rewrite IH. do 2 f_equal. set_solver.
    + rewrite IH. simpl. do 3 f_equal. set_solver.
Qed.

Lemma distinct_go_sublist seen l : distinct_go seen l `sublist_of` l.
Proof.
  revert seen. induction l as [|y l IH]; intros seen; simpl.
  - constructor.
  - destruct (decide (y ∈ seen)); [apply sublist_cons|apply sublist_skip];
      apply IH.
Qed.

Lemma distinct_go_NoDup seen l :
  NoDup l → (∀ x, x ∈ l → x ∉ seen) → distinct_go seen l = l.
Proof.
  revert seen. induction l as [|y l IH]; intros seen Hnd Hdis; [done|].
  apply NoDup_cons in Hnd as [Hy Hnd]. simpl.
  destruct (decide (y ∈ seen)) as [Hin|_].
  - destruct (Hdis y); [left|done].
  - f_equal. apply IH; [done|]. intros x Hx. set_solver.
Qed.

Lemma elem_of_distinct l x : x ∈ distinct l ↔ x ∈ l.
Proof. unfold distinct. rewrite elem_of_distinct_go. set_solver. Qed.

Lemma NoDup_distinct l : NoDup (distinct l).
Proof. apply NoDup_distinct_go. Qed.

Lemma distinct_NoDup l : NoDup l → distinct l = l.
Proof. intros. apply distinct_go_NoDup; [done|]. set_solver. Qed.

(** What comes out before the first occurrence of [x] is the dedup of
    what stands before it. *)
Lemma distinct_before_first l1 x l2 :
  x ∉ l1 → ∃ k, distinct (l1 ++ x :: l2) = distinct l1 ++ x :: k.
Proof.
  intros Hx. unfold distinct. rewrite distinct_go_app. simpl.
  destruct (decide (x ∈ ∅ ∪ list_to_set l1)) as [Hin|_]; [set_solver|].
  eauto.
Qed.

(** A tuple has one distinct value when all its elements are the first. *)
Lemma distinct_length_1 x l :
  length (distinct (x :: l)) = 1 ↔ ∀ y, y ∈ l → y = x.
Proof.
  unfold distinct. simpl. destruct (decide (x ∈ ∅)) as [?|_]; [set_solver|].
  simpl. split.
  - intros Hlen y Hy. destruct (decide (y = x)) as [|Hne]; [done|].
    assert (y ∈ distinct_go ({[x]} ∪ ∅) l) as Hin.
    { rewrite elem_of_distinct_go. set_solver. }
    destruct (distinct_go ({[x]} ∪ ∅) l); [by apply elem_of_nil in Hin|done].
  - intros Hall. destruct (distinct_go ({[x]} ∪ ∅) l) as [|y k] eqn:Hd; [done|].
    assert (y ∈ distinct_go ({[x]} ∪ ∅) l) as Hin by (rewrite Hd; left).
    apply elem_of_distinct_go in Hin as [Hy Hn]. apply Hall in Hy. set_solver.
Qed.
End Distinct.

Section Zip.
Context {A : Type}.
Implicit Types (l t p : list A) (rest ls : list (list A)).

Lemma next_all_rows rest xs ls t :
  next_all rest = Some (xs, ls) → t ∈ rest →
  ∃ x t', t = x :: t' ∧ x ∈ xs ∧ t' ∈ ls.
Proof.
  revert xs ls. induction rest as [|r rest IH]; intros xs ls Hn Ht.
  - by apply elem_of_nil in Ht.
  - simpl in Hn. destruct r as [|x r']; [done|]. simpl in Hn.
    destruct (next_all rest) as [[xs' ls']|]; [|done].
    injection Hn as <- <-.
    apply elem_of_cons in Ht as [->|Ht].
    + exists x, r'. split_and!; [done|left..].
    + destruct (IH _ _ eq_refl Ht) as (y & t' & -> & ? & ?).
      exists y, t'. split_and!; [done|by right..].
Qed.

Lemma next_all_tails rest xs ls t' :
  next_all rest = Some (xs, ls) → t' ∈ ls →
  ∃ x, x ∈ xs ∧ x :: t' ∈ rest.
Proof.
  revert xs ls. induction rest as [|r rest IH]; intros xs ls Hn Ht.
  - injection Hn as <- <-. by apply elem_of_nil in Ht.
  - simpl in Hn. destruct r as [|x r']; [done|]. simpl in Hn.
    destruct (next_all rest) as [[xs' ls']|]; [|done].
    injection Hn as <- <-.
    apply elem_of_cons in Ht as [->|Ht].
    + exists x. split; left.
    + destruct (IH _ _ eq_refl Ht) as (y & ? & ?).
      exists y. split; by right.
Qed.

Lemma next_all_heads rest xs ls x :
  next_all rest = Some (xs, ls) → x ∈ xs → ∃ t', x :: t' ∈ rest.
Proof.
  revert xs ls. induction rest as [|r rest IH]; intros xs ls Hn Hx.
  - injection Hn as <- <-. by apply elem_of_nil in Hx.
  - simpl in Hn. destruct r as [|y r']; [done|]. simpl in Hn.
    destruct (next_all rest) as [[xs' ls']|]; [|done].
    injection Hn as <- <-.
    apply elem_of_cons in Hx as [->|Hx].
    + exists r'. left.
    + destruct (IH _ _ eq_refl Hx) as (t' & ?). exists t'. by right.
Qed.

Lemma next_all_None rest : next_all rest = None → [] ∈ rest.
Proof.
  induction rest as [|r rest IH]; [done|]. simpl.
  destruct r as [|x r']; [left|]. simpl.
  destruct (next_all rest) as [[xs' ls']|]; [done|].
  intros _. right. by apply IH.
Qed.

End Zip.

Section Sorted.
Context {A K : Type} (lt : K → K → bool) (key : A → K).
Implicit Types (l : list A).

Lemma insert_stable_split x l :
  ∃ l1 l2, l = l1 ++ l2 ∧ insert_stable lt key x l = l1 ++ x :: l2
           ∧ Forall (λ y, lt (key y) (key x) = true) l1.
Proof.
  induction l as [|y l (l1 & l2 & -> & Hi & Hall)]; simpl.
  - by exists [], [].
  - destruct (lt (key y) (key x)) eqn:Hlt.
    + exists (y :: l1), l2. rewrite Hi. split_and!; [done..|by constructor].
    + by exists [], (y :: l1 ++ l2).
Qed.

Lemma insert_stable_perm x l : insert_stable lt key x l ≡ₚ x :: l.
Proof.
  destruct (insert_stable_split x l) as (l1 & l2 & -> & -> & _).
  by rewrite Permutation_middle.
Qed.

Lemma sort_stable_perm l : sort_stable lt key l ≡ₚ l.
Proof.
  induction l as [|x l IH]; [done|]. simpl.
  by rewrite insert_stable_perm, IH.
Qed.

Lemma sorted_perm reverse l : sorted lt key reverse l ≡ₚ l.
Proof.
  unfold sorted. destruct reverse.
  - by rewrite <- Permutation_rev, sort_stable_perm, <- Permutation_rev.
  - apply sort_stable_perm.
Qed.

(** The ascending sort keeps [a] before [b] unless [b] is smaller. *)
Lemma sort_stable_keeps a b l :
  [a; b] `sublist_of` l → lt (key b) (key a) = false →
  [a; b] `sublist_of` sort_stable lt key l.
Proof.
  intros Hsub Hlt. induction l as [|x l IH]; [by apply sublist_nil_r in Hsub|].
  simpl. destruct (insert_stable_split x (sort_stable lt key l))
    as (l1 & l2 & Hl & -> & Hall).
  inversion Hsub as [|? ? ? Hb|? ? ? Hab]; subst.
  - apply sublist_inserts_l, sublist_skip.
    assert (b ∈ l1 ++ l2) as Hin.
    { rewrite <- Hl, sort_stable_perm. apply (elem_of_sublist [b]); [left|done]. }
    apply elem_of_app in Hin as [Hin|Hin].
    + rewrite Forall_forall in Hall. apply Hall in Hin. congruence.
    + apply list_elem_of_split in Hin as (k1 & k2 & ->).
      apply sublist_inserts_l, sublist_skip, sublist_nil_l.
  - specialize (IH Hab). rewrite Hl in IH.
    apply sublist_app_r in IH as (m1 & m2 & Hm & H1 & H2).
    rewrite Hm. apply sublist_app; [done|]. by apply sublist_cons.
Qed.

Lemma sublist_pair_rev a b l :
  [a; b] `sublist_of` l → [b; a] `sublist_of` rev l.
Proof.
  intros Hsub.
  apply sublist_cons_l in Hsub as (k1 & k2 & -> & Hb).
  apply sublist_cons_l in Hb as (k3 & k4 & -> & _).
  rewrite rev_app_distr. simpl. rewrite rev_app_distr. simpl.
  rewrite <- !app_assoc. simpl.
  apply sublist_inserts_l, sublist_skip, sublist_inserts_l, sublist_skip,
    sublist_nil_l.
Qed.

(** [sorted] with [reverse=True] keeps [a] before [b] unless [a] is
    smaller. *)
Lemma sorted_reverse_keeps a b l :
  [a; b] `sublist_of` l → lt (key a) (key b) = false →
  [a; b] `sublist_of` sorted lt key true l.
Proof.
  intros Hsub Hlt. unfold sorted.
  apply sublist_pair_rev, sort_stable_keeps; [|done].
  by apply sublist_pair_rev.
Qed.
End Sorted.

(** The sort under a [<] that is a strict weak order. *)
Section Ordered.
Context {A K : Type} (lt : K → K → bool) (key : A → K).
Hypothesis lt_asym : ∀ a b, lt a b = true → lt b a = false.
Hypothesis lt_neg_trans :
  ∀ a b c, lt a b = false → lt b c = false → lt a c = false.
Implicit Types (l : list A).

Lemma lt_irrefl a : lt a a = false.
Proof. destruct (lt a a) eqn:H; [|done]. by rewrite (lt_asym a a H) in H. Qed.

Lemma tie_refl a : tie lt a a = true.
Proof. unfold tie. by rewrite lt_irrefl. Qed.

(** An element below another is not tied with what the other is tied
    with. *)
Lemma tie_not_below x y k :
  lt y x = true → tie lt x k = true → tie lt y k = false.
Proof.
  unfold tie. intros Hyx [Hxk Hkx]%andb_prop.
  apply negb_true_iff in Hxk, Hkx.
  destruct (lt y k) eqn:Hyk; [done|].
  by rewrite (lt_neg_trans y k x Hyk Hkx) in Hyx.
Qed.

Lemma insert_stable_sorted x l :
  StronglySorted (λ p q, lt (key q) (key p) = false) l →
  StronglySorted (λ p q, lt (key q) (key p) = false) (insert_stable lt key x l).
Proof.
  induction 1 as [|y l Hl IH Hy]; simpl; [by repeat constructor|].
  destruct (lt (key y) (key x)) eqn:Hyx.
  - constructor; [done|].
    rewrite insert_stable_perm. constructor; [by apply lt_asym|done].
  - constructor; [by constructor|]. constructor; [done|].
    eapply Forall_impl; [exact Hy|]. intros z Hz.
    by apply (lt_neg_trans _ (key y)).
Qed.

Lemma sort_stable_sorted l :
  StronglySorted (λ p q, lt (key q) (key p) = false) (sort_stable lt key l).
Proof.
  induction l as [|x l IH]; [constructor|]. by apply insert_stable_sorted.
Qed.

Lemma StronglySorted_pair (R : A → A → Prop) l p q :
  StronglySorted R l → [p; q] `sublist_of` l → R p q.
Proof.
  induction 1 as [|a l Hl IH Ha]; intros Hsub; [by apply sublist_nil_r in Hsub|].
  inversion Hsub as [|? ? ? Hq|? ? ? Hpq]; subst; [|by apply IH].
  rewrite Forall_forall in Ha. apply Ha.
  apply (elem_of_sublist [q]); [left|done].
Qed.

Lemma insert_stable_filter k x l :
  filter (λ y, tie lt (key y) k = true) (insert_stable lt key x l)
  = filter (λ y, tie lt (key y) k = true) (x :: l).
Proof.
  induction l as [|y l IH]; [done|]. simpl.
  destruct (lt (key y) (key x)) eqn:Hyx; [|done].
  rewrite filter_cons, IH, !filter_cons.
  repeat case_decide; try done.
  by rewrite (tie_not_below (key x) (key y) k) in *.
Qed.

Lemma sort_stable_filter k l :
  filter (λ y, tie lt (key y) k = true) (sort_stable lt key l)
  = filter (λ y, tie lt (key y) k = true) l.
Proof.
  induction l as [|x l IH]; [done|].
  change (sort_stable lt key (x :: l))
    with (insert_stable lt key x (sort_stable lt key l)).
  by rewrite insert_stable_filter, !filter_cons, IH.
Qed.

Lemma rev_reverse l : rev l = reverse l.
Proof. apply rev_alt. Qed.

(** [sorted] with [reverse=True] is a stable sort, highest key first. *)
Lemma sorted_reverse_stable l :
  stable_sort_desc lt key l (sorted lt key true l).
Proof.
  split.
  - intros p q Hsub. unfold sorted in Hsub.
    apply sublist_pair_rev in Hsub. rewrite rev_involutive in Hsub.
    by apply (StronglySorted_pair _ _ _ _ (sort_stable_sorted (rev l))) in Hsub.
  - intros k. unfold sorted.
    rewrite !rev_reverse, filter_reverse, sort_stable_filter, <- filter_reverse.
    by rewrite reverse_involutive.
Qed.

(** A list has one stable sort, highest key first: what [sorted] returns
    is what every stable sort returns. *)
Lemma stable_sort_unique l a b :
  stable_sort_desc lt key l a → stable_sort_desc lt key l b → a = b.
Proof.
  intros [Ha Hfa] [Hb Hfb].
  assert (Hf : ∀ k, filter (λ y, tie lt (key y) k = true) a
                    = filter (λ y, tie lt (key y) k = true) b)
    by (intros; by rewrite Hfa, Hfb).
  clear Hfa Hfb l. revert b Hb Hf.
  induction a as [|x a IH]; intros b Hb Hf.
  - destruct b as [|y b]; [done|]. specialize (Hf (key y)).
    rewrite filter_nil, filter_cons, decide_True in Hf by apply tie_refl. done.
  - destruct b as [|y b].
    { specialize (Hf (key x)).
      rewrite filter_nil, filter_cons, decide_True in Hf by apply tie_refl. done. }
    assert (lt (key y) (key x) = false) as Hyx.
    { assert (x ∈ y :: b) as Hin.
      { apply (list_elem_of_filter (λ z, tie lt (key z) (key x) = true)).
        rewrite <- Hf, filter_cons, decide_True by apply tie_refl. left. }
      apply elem_of_cons in Hin as [->|Hin]; [apply lt_irrefl|].
      apply Hb. apply sublist_skip. apply list_elem_of_split in Hin as (k1 & k2 & ->).
      apply sublist_inserts_l, sublist_skip, sublist_nil_l. }
    assert (lt (key x) (key y) = false) as Hxy.
    { assert (y ∈ x :: a) as Hin.
      { apply (list_elem_of_filter (λ z, tie lt (key z) (key y) = true)).
        rewrite Hf, filter_cons, decide_True by apply tie_refl. left. }
      apply elem_of_cons in Hin as [->|Hin]; [apply lt_irrefl|].
      apply Ha. apply sublist_skip. apply list_elem_of_split in Hin as (k1 & k2 & ->).
      apply sublist_inserts_l, sublist_skip, sublist_nil_l. }
    assert (x = y) as <-.
    { pose proof (Hf (key x)) as Hfx.
      rewrite !filter_cons, decide_True in Hfx by apply tie_refl.
      rewrite decide_True in Hfx by (unfold tie; by rewrite Hyx, Hxy).
      by injection Hfx. }
    f_equal. apply IH.
    + intros p q Hsub. apply Ha. by apply sublist_cons.
    + intros p q Hsub. apply Hb. by apply sublist_cons.
    + intros k. specialize (Hf k). rewrite !filter_cons in Hf.
      destruct (decide (tie lt (key x) k = true)); [by injection Hf|done].
Qed.
End Ordered.

End SeqFacts.

(** * Facts about the methods *)

Module Facts.
Import Seq SeqFacts.

Lemma one_value_cons x xs :
  one_value (x :: xs) = true ↔ ∀ y, y ∈ xs → y = x.
Proof. unfold one_value. rewrite Nat.eqb_eq. apply distinct_length_1. Qed.

(** The words taken by [take_while] from the tuples of [zip] are a
    prefix of every row, and the longest one. *)
Lemma zip_rows_start l rest :
  let start := first "" <$> take_while one_value (zip_rows l rest) in
  (∀ t, t ∈ l :: rest → start `prefix_of` t) ∧
  (∀ p, (∀ t, t ∈ l :: rest → p `prefix_of` t) → p `prefix_of` start).
Proof.
  revert rest. induction l as [|x l IH]; intros rest; simpl.
  { split; [intros; apply prefix_nil|]. intros p Hp. apply Hp. left. }
  destruct (next_all rest) as [[xs ls]|] eqn:Hn; simpl.
  - destruct (one_value (x :: xs)) eqn:Hone; simpl.
    + destruct (IH ls) as [IH1 IH2]. split.
      * intros t [->|Ht]%elem_of_cons.
        -- apply prefix_cons, IH1. left.
        -- destruct (next_all_rows _ _ _ _ Hn Ht) as (y & t' & -> & Hy & Ht').
           rewrite (proj1 (one_value_cons x xs) Hone y Hy).
           apply prefix_cons, IH1. by right.
      * intros p Hp. destruct p as [|y p]; [apply prefix_nil|].
        assert (y = x) as -> by (eapply prefix_cons_inv_1, Hp; left).
        apply prefix_cons, IH2. intros t [->|Ht]%elem_of_cons.
        -- eapply prefix_cons_inv_2, Hp. left.
        -- destruct (next_all_tails _ _ _ _ Hn Ht) as (z & _ & Hz).
           eapply prefix_cons_inv_2, Hp. right. exact Hz.
    + split; [intros; apply prefix_nil|]. intros p Hp.
      destruct p as [|y p]; [apply prefix_nil|]. exfalso.
      assert (one_value (x :: xs) = true) as Hone'; [|congruence].
      apply one_value_cons. intros z Hz.
      destruct (next_all_heads _ _ _ _ Hn Hz) as (t' & Ht').
      assert (y = x) by (eapply prefix_cons_inv_1, Hp; left).
      assert (y = z) by (eapply prefix_cons_inv_1, Hp; right; exact Ht').
      congruence.
  - split; [intros; apply prefix_nil|]. intros p Hp.
    apply next_all_None in Hn. apply Hp. by right.
Qed.

Lemma common_start_prefix ls t : t ∈ ls → common_start ls `prefix_of` t.
Proof.
  destruct ls as [|l rest]; [by intros ?%elem_of_nil|].
  apply (zip_rows_start l rest).
Qed.

Lemma common_start_longest ls p :
  ls ≠ [] → (∀ t, t ∈ ls → p `prefix_of` t) → p `prefix_of` common_start ls.
Proof.
  destruct ls as [|l rest]; [done|]. intros _.
  apply (zip_rows_start l rest).
Qed.

(** The three parts of the words [t] of an option: the common start,
    the slice that is kept, and the common end. *)
Lemma option_parts (ls : list (list string)) t :
  let start := common_start ls in
  let end_ := common_start ((λ x, reverse (drop (length start) x)) <$> ls) in
  t ∈ ls →
  t = start ++ slice (length start) (length t - length end_) t ++ reverse end_.
Proof.
  intros start end_ Ht.
  destruct (common_start_prefix ls t Ht) as [rem Hrem].
  assert (end_ `prefix_of` reverse rem) as [k Hk].
  { apply common_start_prefix. apply list_elem_of_fmap.
    exists t. split; [|done]. by rewrite Hrem, drop_app_length. }
  assert (rem = reverse k ++ reverse end_) as Hrem'.
  { by rewrite <- reverse_app, <- Hk, reverse_involutive. }
  change (common_start ls) with start in Hrem.
  clearbody start end_. subst t rem.
  unfold slice. rewrite drop_app_length. do 2 f_equal.
  rewrite !length_app, !length_reverse.
  replace (length start + (length k + length end_) - length end_ - length start)
    with (length (reverse k)) by (rewrite length_reverse; lia).
  by rewrite take_app_length.
Qed.

Lemma common_end_length (ls : list (list string)) t :
  let start := common_start ls in
  let end_ := common_start ((λ x, reverse (drop (length start) x)) <$> ls) in
  t ∈ ls → length start + length end_ ≤ length t.
Proof.
  intros start end_ Ht. pose proof (option_parts ls t Ht) as Hp.
  apply (f_equal length) in Hp. fold start end_ in Hp.
  rewrite !length_app, length_reverse in Hp. lia.
Qed.

Section Monad.
Context {A B : Type} (f : A → M B).

Lemma traverse_Ok l lg ys lg' :
  traverse f l lg = (Ok ys, lg') →
  Forall2 (λ x y, ∃ a b, f x a = (Ok y, b)) l ys.
Proof.
  revert lg ys lg'. induction l as [|x l IH]; intros lg ys lg'; simpl.
  - unfold ret. intros [= <- <-]. constructor.
  - unfold bind. destruct (f x lg) as [[y|e] l1] eqn:Hf; [|done].
    destruct (traverse f l l1) as [[ys'|e] l2] eqn:Ht; [|done].
    unfold ret. intros [= <- <-]. constructor; eauto.
Qed.

(** A function that always returns and leaves the log alone. *)
Lemma traverse_pure (g : A → B) l lg :
  (∀ x a, x ∈ l → f x a = (Ok (g x), a)) →
  traverse f l lg = (Ok (g <$> l), lg).
Proof.
  induction l as [|x l IH]; intros Hf; simpl; [done|].
  unfold bind. rewrite Hf by left.
  rewrite IH by (intros; apply Hf; by right). done.
Qed.
End Monad.

Section Ranking.
Variable self : FitBertT.

Lemma by_score_perm scores words :
  length scores = length words → by_score self scores words ≡ₚ words.
Proof.
  intros Hlen. unfold by_score. rewrite sorted_perm.
  rewrite snd_zip by lia. done.
Qed.

Lemma by_score_keeps scores words sa a sb b :
  [(sa, a); (sb, b)] `sublist_of` zip scores words →
  prob_ltb self sa sb = false →
  [a; b] `sublist_of` by_score self scores words.
Proof.
  intros Hsub Hlt. unfold by_score.
  apply (fmap_sublist snd [(sa, a); (sb, b)]).
  by apply sorted_reverse_keeps.
Qed.
End Ranking.

Lemma fmap_thrice {A B C D} (f : C → D) (g : B → C) (h : A → B) (l : list A) :
  f <$> (g <$> (h <$> l)) = (λ x, f (g (h x))) <$> l.
Proof. induction l as [|x l IH]; [done|]. by rewrite !fmap_cons, IH. Qed.

(** [simplify_options] written out on the words of the options. *)
Lemma simplify_options_eq self sent options :
  let start := common_start (Str.split <$> options) in
  let end_ := common_start ((λ x, reverse (drop (length start) x))
                              <$> (Str.split <$> options)) in
  simplify_options self sent options
  = ((λ o, Str.strip (make_string " "
             (slice (length start) (length (Str.split o) - length end_)
                    (Str.split o)))) <$> options,
     Str.replace (mask_token self)
       (Str.strip (make_string " "
          [make_string " " start; mask_token self;
           make_string " " (reverse end_)])) sent,
     make_string " " start,
     make_string " " (reverse end_)).
Proof.
  intros start end_. unfold simplify_options. cbv zeta.
  fold start. fold end_. by rewrite fmap_thrice.
Qed.

End Facts.

(** * The claims *)

Import Seq SeqFacts Facts.

(** ** C7 *)

(** C7 as stated fails: the option list [[""]] holds no option with more
    than one white-space token, and [is_multi] is true on it. *)
Lemma is_multi_more_than_one_counterexample :
  ¬ (is_multi [""] = true ↔ ∃ o, o ∈ [""] ∧ 1 < length (Str.split o)).
Proof.
  intros [Hex _]. destruct (Hex eq_refl) as (o & Ho & Hlen).
  apply list_elem_of_singleton in Ho as ->. vm_compute in Hlen. lia.
Qed.

(** C7, amended: [is_multi options] is true if and only if the number of
    white-space tokens of at least one option is not one, which is the case
    for more than one token and for none. *)
Theorem is_multi_iff (options : list string) :
  is_multi options = true ↔ ∃ o, o ∈ options ∧ length (Str.split o) ≠ 1.
Proof.
  unfold is_multi. rewrite negb_true_iff, Nat.eqb_neq. split.
  - intros Hne.
    destruct (filter (λ x, length (Str.split x) ≠ 1) options) as [|o k] eqn:Hf;
      [done|].
    assert (o ∈ filter (λ x, length (Str.split x) ≠ 1) options) as Hin
      by (rewrite Hf; left).
    apply list_elem_of_filter in Hin as [? ?]. eauto.
  - intros (o & Ho & Hlen) Hnil.
    assert (o ∈ filter (λ x, length (Str.split x) ≠ 1) options) as Hin
      by (by apply list_elem_of_filter).
    destruct (filter (λ x, length (Str.split x) ≠ 1) options); [|done].
    by apply elem_of_nil in Hin.
Qed.

(** ** C5 *)

(** C5: when the options hold one distinct string, [rank] returns it at
    once, for every sentence, and the log of model calls is unchanged. *)
Theorem rank_one_option self (sent : string) (options : list string) w lg :
  distinct options = [w] → rank self sent options lg = (Ok [w], lg).
Proof. intros Hd. unfold rank. by rewrite Hd. Qed.

Lemma rank_one_option_witness :
  distinct ["eat"; "eat"] = ["eat"]
  ∧ rank toy "She likes to ***mask***." ["eat"; "eat"] [] = (Ok ["eat"], []).
Proof. split; [reflexivity|]. apply rank_one_option. reflexivity. Defined.

(** ** C10 *)

(** C10: [simplify_options] returns as many options as it is given, and
    the i-th one is made of the words of the i-th input option alone: the
    slice between the common start and the common end, which fits in it. *)
Theorem simplify_options_pointwise self (sent : string) (options : list string) :
  let start := common_start (Str.split <$> options) in
  let end_ := common_start ((λ x, reverse (drop (length start) x))
                              <$> (Str.split <$> options)) in
  let '(options', _, _, _) := simplify_options self sent options in
  length options' = length options
  ∧ ∀ i o, options !! i = Some o →
      length start + length end_ ≤ length (Str.split o)
      ∧ options' !! i
        = Some (Str.strip (make_string " "
                  (slice (length start) (length (Str.split o) - length end_)
                         (Str.split o)))).
Proof.
  intros start end_. rewrite simplify_options_eq. fold start end_. split.
  - apply length_fmap.
  - intros i o Hi. split.
    + apply common_end_length, list_elem_of_fmap. exists o. split; [done|].
      by eapply list_elem_of_lookup_2.
    + by rewrite list_lookup_fmap, Hi.
Qed.

Example simplify_options_example :
  simplify_options toy "Take ***mask*** now." ["a red car"; "a car"; "a blue car"]
  = (["red"; ""; "blue"], "Take a ***mask*** car now.", "a", "car").
Proof. reflexivity. Qed.

(** ** C3 *)

(** C3: on the options "to eat" and "to drink" in "I want ***mask***."
    the result is the start "to", no end, the options "eat" and "drink" and
    the sentence "I want to ***mask***."; and for every non-empty option
    list what is stripped is the longest common leading run of words and
    the longest common trailing run of the words left after it. *)
Theorem simplify_options_affixes self :
  (mask_token self = "***mask***" →
   simplify_options self "I want ***mask***." ["to eat"; "to drink"]
   = (["eat"; "drink"], "I want to ***mask***.", "to", ""))
  ∧ ∀ (sent : string) (options : list string),
      options ≠ [] → strips_common_affixes self sent options.
Proof.
  split.
  { intros Hm. unfold simplify_options. rewrite Hm. reflexivity. }
  intros sent options Hne.
  set (start := common_start (Str.split <$> options)).
  set (end_ := common_start ((λ x, reverse (drop (length start) x))
                               <$> (Str.split <$> options))).
  exists start, (reverse end_), ((λ o, Str.strip (make_string " "
    (slice (length start) (length (Str.split o) - length end_) (Str.split o))))
    <$> options).
  assert (Hfm : ∀ o, o ∈ options → Str.split o ∈ Str.split <$> options).
  { intros o Ho. apply list_elem_of_fmap. eauto. }
  assert (Hrev : ∀ o, o ∈ options →
            reverse (drop (length start) (Str.split o))
            ∈ (λ x, reverse (drop (length start) x)) <$> (Str.split <$> options)).
  { intros o Ho. apply list_elem_of_fmap.
    exists (Str.split o). split; [done|]. by apply Hfm. }
  split_and!.
  - split.
    + intros t (o & -> & Ho)%list_elem_of_fmap. by apply common_start_prefix, Hfm.
    + intros q Hq. apply common_start_longest.
      * destruct options; [done|]. by rewrite fmap_cons.
      * intros t (o & -> & Ho)%list_elem_of_fmap. apply Hq, list_elem_of_fmap. eauto.
  - split.
    + intros t (o & -> & Ho)%list_elem_of_fmap.
      rewrite <- (reverse_involutive (drop _ _)).
      apply prefix_suffix_reverse, common_start_prefix, Hrev, Ho.
    + intros q Hq. rewrite <- (reverse_involutive q).
      apply prefix_suffix_reverse, common_start_longest.
      * destruct options; [done|]. by rewrite !fmap_cons.
      * intros t (t' & -> & (o & -> & Ho)%list_elem_of_fmap)%list_elem_of_fmap.
        apply suffix_prefix_reverse, Hq, list_elem_of_fmap. eauto.
  - apply Forall2_fmap_r, Forall_Forall2_diag, Forall_forall. intros o Ho.
    eexists. split; [|done]. apply (option_parts (Str.split <$> options)), Hfm, Ho.
  - apply simplify_options_eq.
Qed.

Lemma simplify_options_affixes_witness :
  simplify_options toy "I want ***mask***." ["to eat"; "to drink"]
  = (["eat"; "drink"], "I want to ***mask***.", "to", "")
  ∧ strips_common_affixes toy "Take ***mask***." ["a red car"; "a blue car"].
Proof.
  split.
  - apply (proj1 (simplify_options_affixes toy)). reflexivity.
  - apply (proj2 (simplify_options_affixes toy)). discriminate.
Defined.

(** ** C4 *)

Lemma masked_rows_traverse self (tokens : list string) lg :
  traverse (λ '(i, _), tokens_to_masked_ids self tokens i) (imap pair tokens) lg
  = (Ok (masked_rows self tokens), lg).
Proof.
  rewrite (traverse_pure _
    (λ '(i, _), vocab self <$> ["[CLS]"] ++ <[i := "[MASK]"]> tokens ++ ["[SEP]"])).
  - unfold masked_rows. by rewrite fmap_imap.
  - intros [i t] a (j & Hj)%list_elem_of_lookup.
    rewrite list_lookup_imap in Hj.
    destruct (tokens !! j) as [u|] eqn:Hu; [|done]. injection Hj as <- <-.
    apply lookup_lt_Some in Hu. unfold tokens_to_masked_ids.
    by destruct (decide (j < length tokens)).
Qed.

(** C4: when the model answers on the batch of the masked rows, the
    result is the product, from 1 and in the order of the positions, of the
    probabilities read in row [i] at the position of the mask for the id of
    the token [i]; row [i] is the tokens between the two boundary tokens
    with the mask at [i] alone. *)
Theorem get_sentence_probability_product self (sent : string) lg probs :
  let tokens := tokenize self sent in
  bert_softmax self (masked_rows self tokens) = Some probs →
  get_sentence_probability self sent lg
  = (Ok (foldl (prob_mul self) (prob_one self)
           (imap (λ i t, probs i (i + 1) (vocab self t)) tokens)),
     lg ++ [masked_rows self tokens])
  ∧ ∀ i t, tokens !! i = Some t →
      ∃ row, masked_rows self tokens !! i = Some row
        ∧ length row = length tokens + 2
        ∧ row !! 0 = Some (vocab self "[CLS]")
        ∧ row !! (i + 1) = Some (vocab self "[MASK]")
        ∧ (∀ j u, j ≠ i → tokens !! j = Some u →
             row !! (j + 1) = Some (vocab self u))
        ∧ row !! (length tokens + 1) = Some (vocab self "[SEP]").
Proof.
  intros tokens Hprobs. split.
  - unfold get_sentence_probability. fold tokens. unfold bind.
    rewrite masked_rows_traverse. unfold call_model. rewrite Hprobs.
    unfold ret, convert_tokens_to_ids. by rewrite imap_fmap.
  - intros i t Hi. pose proof (lookup_lt_Some _ _ _ Hi) as Hlt.
    eexists. split; [unfold masked_rows; by rewrite list_lookup_imap, Hi|].
    split_and!.
    + rewrite length_fmap. simpl. rewrite length_app, length_insert. simpl. lia.
    + done.
    + rewrite list_lookup_fmap. replace (i + 1) with (S i) by lia. simpl.
      rewrite lookup_app_l by (rewrite length_insert; lia).
      by rewrite list_lookup_insert_eq.
    + intros j u Hne Hj. pose proof (lookup_lt_Some _ _ _ Hj).
      rewrite list_lookup_fmap. replace (j + 1) with (S j) by lia. simpl.
      rewrite lookup_app_l by (rewrite length_insert; lia).
      by rewrite list_lookup_insert_ne, Hj.
    + rewrite list_lookup_fmap. replace (length tokens + 1) with (S (length tokens)) by lia.
      simpl. rewrite lookup_app_r by (rewrite length_insert; lia).
      by rewrite length_insert, Nat.sub_diag.
Qed.

Lemma get_sentence_probability_product_witness :
  get_sentence_probability toy "to be or" [[[1]]]
  = (Ok 8, [[[1]]; [[5; 6; 2; 2; 5]; [5; 2; 6; 2; 5]; [5; 2; 2; 6; 5]]]).
Proof.
  apply (get_sentence_probability_product toy "to be or" [[[1]]] (λ _ _ x, x)).
  reflexivity.
Defined.

(** ** C9 *)

(** Either ranker, when it returns, has scored every word and returns the
    words sorted by these scores. *)
Lemma ranker_scores self multi (masked_sent : string) (words : list string)
    lg r lg' :
  ranker self multi masked_sent words lg = (Ok r, lg') →
  ∃ scores, scored_by self multi masked_sent words scores
            ∧ length scores = length words
            ∧ r = by_score self scores words.
Proof.
  destruct multi; simpl.
  - unfold rank_multi, bind.
    destruct (traverse _ words lg) as [[scores|e] l1] eqn:Ht; [|done].
    unfold ret. intros [= <- <-]. exists scores.
    apply traverse_Ok in Ht. split_and!; [done| |done].
    symmetry. by eapply Forall2_length.
  - unfold rank_single.
    destruct (Str.split_on (mask_token self) masked_sent)
      as [[|pre [|post [|]]]|] eqn:Hs; try done.
    unfold bind, call_model.
    destruct (bert_softmax self _) as [probs|] eqn:Hb; [|done].
    destruct (traverse _ words _) as [[scores|e] l1] eqn:Ht; [|done].
    unfold ret. intros [= <- <-]. exists scores.
    apply traverse_Ok in Ht. split_and!; [|symmetry; by eapply Forall2_length|done].
    exists pre, post, probs. split_and!; [done| |].
    + unfold single_row. rewrite <- Hb. unfold convert_tokens_to_ids.
      by rewrite <- !app_assoc.
    + eapply Forall2_impl; [done|]. intros w s (a & b & Hw).
      unfold word_score, convert_tokens_to_ids in Hw.
      destruct (vocab self <$> tokenize self w) as [|id ids]; [done|].
      injection Hw as <- _. by exists id, ids.
Qed.

(** C9: in the single-token and in the multi-token ranker the scored
    options come back rearranged, highest score first: no option stands
    before one with a higher score; and ties keep their order: the options
    whose score compares equal to a given one (neither is below the other)
    are, in the ranking, in the order of the input, so when [a] with score
    [sa] stands before [b] with score [sb] in the input and the two scores
    compare equal, [a] stands before [b] in the ranking. *)
Theorem rank_ties_keep_order self (multi : bool) (masked_sent : string)
    (words : list string) lg r lg' :
  ranker self multi masked_sent words lg = (Ok r, lg') →
  ∃ scores ranked,
    scored_by self multi masked_sent words scores
    ∧ ranked ≡ₚ zip scores words
    ∧ r = ranked.*2
    ∧ r ≡ₚ words
    ∧ (∀ p q, [p; q] `sublist_of` ranked → prob_ltb self p.1 q.1 = false)
    ∧ (∀ s, filter (λ p, same_score self p.1 s = true) ranked
            = filter (λ p, same_score self p.1 s = true) (zip scores words))
    ∧ ∀ sa a sb b,
        [(sa, a); (sb, b)] `sublist_of` zip scores words →
        same_score self sa sb = true →
        [(sa, a); (sb, b)] `sublist_of` ranked ∧ [a; b] `sublist_of` r.
Proof.
  intros (scores & Hsc & Hlen & ->)%ranker_scores.
  exists scores, (sorted (prob_ltb self) fst true (zip scores words)).
  destruct (sorted_reverse_stable (prob_ltb self) fst
              (prob_ltb_asym self) (prob_ltb_neg_trans self) (zip scores words))
    as [Hdesc Hties].
  split_and!; [done|apply sorted_perm|done|by apply by_score_perm|done|done|].
  intros sa a sb b Hsub [Hlt _]%andb_prop. apply negb_true_iff in Hlt. split.
  - by apply sorted_reverse_keeps.
  - by apply (by_score_keeps self scores words sa a sb b Hsub).
Qed.

Lemma rank_ties_keep_order_witness :
  (ranker toy false "She likes to ***mask***." ["run"; "walk"; "eat"] []
   = (Ok ["walk"; "run"; "eat"], [[[5; 3; 5; 2; 6; 1; 5]]])
   ∧ ["run"; "eat"] `sublist_of` ["walk"; "run"; "eat"])
  ∧ (ranker toy true "He ***mask*** home." ["is at"; "ran to"; "sat at"] []
     = (Ok ["ran to"; "sat at"; "is at"],
        [[[5; 6; 2; 2; 5; 5]; [5; 2; 6; 2; 5; 5]; [5; 2; 2; 6; 5; 5]; [5; 2; 2; 2; 6; 5]];
         [[5; 6; 3; 2; 5; 5]; [5; 2; 6; 2; 5; 5]; [5; 2; 3; 6; 5; 5]; [5; 2; 3; 2; 6; 5]];
         [[5; 6; 3; 2; 5; 5]; [5; 2; 6; 2; 5; 5]; [5; 2; 3; 6; 5; 5]; [5; 2; 3; 2; 6; 5]]])
     ∧ ["ran to"; "sat at"] `sublist_of` ["ran to"; "sat at"; "is at"]).
Proof.
  split.
  - assert (ranker toy false "She likes to ***mask***." ["run"; "walk"; "eat"] []
            = (Ok ["walk"; "run"; "eat"], [[[5; 3; 5; 2; 6; 1; 5]]])) as Hr
      by reflexivity.
    split; [exact Hr|].
    destruct (rank_ties_keep_order toy false _ _ _ _ _ Hr)
      as (scores & ranked & (pre & post & probs & Hs & Hb & Hsc)
          & _ & _ & _ & _ & _ & Hkeep).
    injection Hs as <- <-. injection Hb as <-.
    apply Forall2_cons_inv_l in Hsc as (s1 & k1 & (? & ? & [= <- _] & ->) & Hsc & ->).
    apply Forall2_cons_inv_l in Hsc as (s2 & k2 & (? & ? & [= <- _] & ->) & Hsc & ->).
    apply Forall2_cons_inv_l in Hsc as (s3 & k3 & (? & ? & [= <- _] & ->) & Hsc & ->).
    apply Forall2_nil_inv_l in Hsc as ->.
    apply (Hkeep 3 "run" 3 "eat"); [|reflexivity].
    apply sublist_skip, sublist_cons, sublist_skip, sublist_nil_l.
  - assert (ranker toy true "He ***mask*** home." ["is at"; "ran to"; "sat at"] []
     = (Ok ["ran to"; "sat at"; "is at"],
        [[[5; 6; 2; 2; 5; 5]; [5; 2; 6; 2; 5; 5]; [5; 2; 2; 6; 5; 5]; [5; 2; 2; 2; 6; 5]];
         [[5; 6; 3; 2; 5; 5]; [5; 2; 6; 2; 5; 5]; [5; 2; 3; 6; 5; 5]; [5; 2; 3; 2; 6; 5]];
         [[5; 6; 3; 2; 5; 5]; [5; 2; 6; 2; 5; 5]; [5; 2; 3; 6; 5; 5]; [5; 2; 3; 2; 6; 5]]])) as Hr
      by reflexivity.
    split; [exact Hr|].
    destruct (rank_ties_keep_order toy true _ _ _ _ _ Hr)
      as (scores & ranked & Hsc & _ & _ & _ & _ & _ & Hkeep).
    apply Forall2_cons_inv_l in Hsc as (s1 & k1 & (? & ? & [= <- _]) & Hsc & ->).
    apply Forall2_cons_inv_l in Hsc as (s2 & k2 & (? & ? & [= <- _]) & Hsc & ->).
    apply Forall2_cons_inv_l in Hsc as (s3 & k3 & (? & ? & [= <- _]) & Hsc & ->).
    apply Forall2_nil_inv_l in Hsc as ->.
    apply (Hkeep 60 "ran to" 60 "sat at"); [|reflexivity].
    apply sublist_cons, sublist_skip, sublist_skip, sublist_nil_l.
Defined.

(** ** C1 *)

Lemma fmap_id_on {A} (f : A → A) (l : list A) :
  (∀ x, x ∈ l → f x = x) → f <$> l = l.
Proof.
  induction l as [|x l IH]; intros Hf; [done|].
  rewrite fmap_cons, Hf, IH; [done| |left]. intros y Hy. apply Hf. by right.
Qed.

(** [rank] past its short cut: simplify, rank by the chosen ranker, and
    put the common words back around every ranked option. *)
Lemma rank_unfold self (sent : string) (options : list string) lg r lg' :
  rank self sent options lg = (Ok r, lg') →
  length (distinct options) ≠ 1 →
  ∃ options' sent' sw ew ranked,
    simplify_options self sent (distinct options) = (options', sent', sw, ew)
    ∧ ranker self (is_multi options') sent' options' lg = (Ok ranked, lg')
    ∧ r = (λ x, Str.strip (make_string " " [sw; x; ew])) <$> ranked.
Proof.
  intros Hrank Hlen. unfold rank in Hrank.
  destruct (Nat.eqb_spec (length (distinct options)) 1) as [|_]; [done|].
  destruct (simplify_options self sent (distinct options))
    as [[[options' sent'] sw] ew].
  exists options', sent', sw, ew. unfold bind in Hrank. unfold ranker.
  destruct (is_multi options').
  - destruct (rank_multi self sent' options' lg) as [[ranked|e] l1]; [|done].
    injection Hrank as <- <-. by exists ranked.
  - destruct (rank_single self sent' options' lg) as [[ranked|e] l1]; [|done].
    injection Hrank as <- <-. by exists ranked.
Qed.

(** C1 as stated fails: "a b" and "a  b" are two options, and both come
    back as "a b". *)
Lemma rank_dedup_counterexample :
  ∃ r lg',
    rank toy "I want ***mask***." ["a b"; "a  b"] [] = (Ok r, lg')
    ∧ length (distinct r) ≠ length (distinct ["a b"; "a  b"])
    ∧ "a  b" ∉ r.
Proof.
  eexists _, _. split; [reflexivity|]. split; [by vm_compute|].
  intros Hin. by repeat (apply elem_of_cons in Hin as [?|Hin]; [done|]);
    apply elem_of_nil in Hin.
Qed.

(** The case the amended claim leaves out: an option that is the common
    start and the common end with nothing in between comes back with two
    spaces. *)
Example rank_empty_middle_example :
  rank toy "I want ***mask***." ["a b"; "a c b"] []
  = (Ok ["a  b"; "a c b"],
     [[[5; 6; 4; 1; 2; 5]; [5; 1; 6; 1; 2; 5]; [5; 1; 4; 6; 2; 5];
       [5; 1; 4; 1; 6; 5]];
      [[5; 6; 4; 1; 1; 2; 5]; [5; 1; 6; 1; 1; 2; 5]; [5; 1; 4; 6; 1; 2; 5];
       [5; 1; 4; 1; 6; 2; 5]; [5; 1; 4; 1; 1; 6; 5]]]).
Proof. reflexivity. Qed.

(** C1, amended: when every option is its words joined by single spaces
    (or all options are one and the same string), and no simplified option
    is empty while words are stripped on both sides, the list [rank]
    returns is a rearrangement of the deduplicated options: every distinct
    option is in it exactly once. *)
Theorem rank_permutation self (sent : string) (options : list string) lg r lg' :
  rank self sent options lg = (Ok r, lg') →
  (length (distinct options) ≠ 1 → ∀ o, o ∈ options → Normalised o) →
  (∀ options' sent' start_words end_words,
     simplify_options self sent (distinct options)
     = (options', sent', start_words, end_words) →
     start_words = "" ∨ end_words = "" ∨ "" ∉ options') →
  r ≡ₚ distinct options
  ∧ NoDup r
  ∧ (∀ x, x ∈ r ↔ x ∈ options)
  ∧ length (distinct r) = length (distinct options).
Proof.
  intros Hrank Hnorm Hslip.
  assert (r ≡ₚ distinct options) as Hperm.
  { destruct (decide (length (distinct options) = 1)) as [Hone|Hmore].
    { unfold rank in Hrank. rewrite Hone in Hrank. by injection Hrank as <- _. }
    destruct (rank_unfold _ _ _ _ _ _ Hrank Hmore)
      as (options' & sent' & sw & ew & ranked & Hsimp & Hranker & ->).
    apply ranker_scores in Hranker as (scores & _ & Hlen & ->).
    rewrite (by_score_perm self scores options' Hlen).
    specialize (Hslip _ _ _ _ Hsimp).
    rewrite simplify_options_eq in Hsimp.
    set (ls := Str.split <$> distinct options) in *.
    set (start := common_start ls) in *.
    set (end_ := common_start ((λ x, reverse (drop (length start) x)) <$> ls)) in *.
    injection Hsimp as <- _ <- <-.
    rewrite <- list_fmap_compose. rewrite fmap_id_on; [done|].
    intros o Ho. unfold compose.
    assert (Str.split o ∈ ls) as Ht by (apply list_elem_of_fmap; eauto).
    pose proof (option_parts ls _ Ht) as Hparts. fold start end_ in Hparts.
    set (mid := slice (length start) (length (Str.split o) - length end_)
                      (Str.split o)) in *.
    pose proof (StrFacts.split_solid o) as Hsolid. rewrite Hparts in Hsolid.
    apply Forall_app in Hsolid as [Hs Hsolid].
    apply Forall_app in Hsolid as [Hm He].
    unfold make_string. rewrite (StrFacts.strip_join_words mid Hm).
    rewrite StrFacts.rejoin; [|done..|].
    - rewrite <- Hparts. apply (Hnorm Hmore). by apply elem_of_distinct.
    - destruct Hslip as [Hsw|[Hew|Hno]].
      + left. apply StrFacts.join_words_empty; [done|].
        unfold make_string in Hsw. by rewrite Hsw.
      + right; left. apply StrFacts.join_words_empty; [done|].
        unfold make_string in Hew. by rewrite Hew.
      + right; right. intros Hmid. apply Hno.
        apply list_elem_of_fmap. exists o. split; [|done].
        fold mid. by rewrite Hmid. }
  split_and!.
  - done.
  - rewrite Hperm. apply NoDup_distinct.
  - intros x. by rewrite Hperm, elem_of_distinct.
  - rewrite distinct_NoDup by (rewrite Hperm; apply NoDup_distinct).
    by rewrite Hperm.
Qed.

Lemma rank_permutation_witness :
  rank toy "I want ***mask***." ["to eat"; "to drink"; "to eat"; "to sleep"] []
  = (Ok ["to drink"; "to sleep"; "to eat"], [[[5; 1; 4; 2; 6; 1; 5]]])
  ∧ ["to drink"; "to sleep"; "to eat"] ≡ₚ ["to eat"; "to drink"; "to sleep"].
Proof.
  assert (rank toy "I want ***mask***."
            ["to eat"; "to drink"; "to eat"; "to sleep"] []
          = (Ok ["to drink"; "to sleep"; "to eat"], [[[5; 1; 4; 2; 6; 1; 5]]]))
    as Hr by reflexivity.
  split; [exact Hr|].
  apply (rank_permutation toy _ _ _ _ _ Hr).
  - intros _ o Ho.
    repeat (apply elem_of_cons in Ho as [->|Ho]; [reflexivity|]).
    by apply elem_of_nil in Ho.
  - intros options' sent' sw ew Hs. vm_compute in Hs.
    injection Hs as <- <- <- <-. right; by left.
Defined.

(** ** C2 *)

(** C2 as stated fails: of "to eat" and "to drink" the single-token ranker
    puts the word group "drink" first, and [fitb] does not fill the sentence
    with that group alone: it returns "I want to drink.". *)
Lemma fitb_word_group_counterexample :
  ∃ options' sent' sw ew top others lg',
    simplify_options toy "I want ***mask***." ["to eat"; "to drink"]
    = (options', sent', sw, ew)
    ∧ rank_single toy sent' options' [] = (Ok (top :: others), lg')
    ∧ rank toy "I want ***mask***." ["to eat"; "to drink"] []
      = (Ok (Str.strip (make_string " " [sw; top; ew])
             :: ((λ x, Str.strip (make_string " " [sw; x; ew])) <$> others)),
         lg')
    ∧ fitb toy "I want ***mask***." ["to eat"; "to drink"] []
      = (Ok "I want to drink.", lg')
    ∧ fitb toy "I want ***mask***." ["to eat"; "to drink"] []
      ≠ (Ok (Str.replace (mask_token toy) top "I want ***mask***."), lg').
Proof.
  exists ["eat"; "drink"], "I want to ***mask***.", "to", "", "drink", ["eat"],
    [[[5; 1; 4; 2; 6; 1; 5]]].
  split_and!; [reflexivity..|by vm_compute].
Qed.

(** C2, amended: [fitb] returns the sentence it was given, not the
    simplified one, with the placeholder replaced by the first string of
    [rank]; past the short cut of [rank] that string is the whole
    reconstructed phrase: the common start, the option the ranker puts
    first and the common end, joined by spaces and stripped. *)
Theorem fitb_whole_phrase self (sent : string) (options : list string)
    lg best rest lg' :
  rank self sent options lg = (Ok (best :: rest), lg') →
  fitb self sent options lg
  = (Ok (Str.replace (mask_token self) best sent), lg')
  ∧ (length (distinct options) ≠ 1 →
     ∃ options' sent' sw ew top others,
       simplify_options self sent (distinct options) = (options', sent', sw, ew)
       ∧ ranker self (is_multi options') sent' options' lg
         = (Ok (top :: others), lg')
       ∧ best = Str.strip (make_string " " [sw; top; ew])).
Proof.
  intros Hrank. split.
  - unfold fitb, bind. by rewrite Hrank.
  - intros Hmore.
    destruct (rank_unfold _ _ _ _ _ _ Hrank Hmore)
      as (options' & sent' & sw & ew & ranked & Hsimp & Hranker & Hr).
    destruct ranked as [|top others]; [done|].
    rewrite fmap_cons in Hr. injection Hr as -> _.
    by exists options', sent', sw, ew, top, others.
Qed.

Lemma fitb_whole_phrase_witness :
  rank toy "I want ***mask***." ["to eat"; "to drink"] []
  = (Ok ["to drink"; "to eat"], [[[5; 1; 4; 2; 6; 1; 5]]])
  ∧ fitb toy "I want ***mask***." ["to eat"; "to drink"] []
    = (Ok "I want to drink.", [[[5; 1; 4; 2; 6; 1; 5]]]).
Proof.
  assert (rank toy "I want ***mask***." ["to eat"; "to drink"] []
          = (Ok ["to drink"; "to eat"], [[[5; 1; 4; 2; 6; 1; 5]]])) as Hr
    by reflexivity.
  split; [exact Hr|].
  apply (fitb_whole_phrase toy _ _ _ _ _ _ Hr).
Defined.

(** ** C8 *)

Lemma prefix_sdrop old s :
  String.prefix old s = true → old +:+ sdrop (String.length old) s = s.
Proof.
  revert s. induction old as [|c old IH]; intros s; [done|].
  destruct s as [|d s]; simpl; [done|].
  destruct (ascii_dec c d) as [->|]; [|done].
  intros Hp. by rewrite StrFacts.sapp_cons, IH.
Qed.

Lemma replace_go_same old s skip :
  Str.is_empty old = false → Str.replace_go old old skip s = sdrop skip s.
Proof.
  intros Hne. revert skip. induction s as [|c s IH]; intros skip.
  { by destruct skip. }
  destruct skip as [|k]; cbn [Str.replace_go sdrop]; [|apply IH].
  destruct (String.prefix old (String c s)) eqn:Hp.
  - rewrite IH. apply prefix_sdrop in Hp.
    destruct old as [|d old]; [done|].
    cbn [String.length sdrop] in Hp. cbn [String.length].
    by rewrite Nat.sub_succ, Nat.sub_0_r.
  - by rewrite IH.
Qed.

(** Replacing the placeholder by itself changes nothing. *)
Lemma replace_same old s : Str.replace old old s = s.
Proof.
  unfold Str.replace. destruct (Str.is_empty old) eqn:He.
  - apply StrFacts.is_empty_true in He as ->.
    induction s as [|c s IH]; [done|]. simpl.
    by rewrite StrFacts.sapp_nil_l, IH.
  - by rewrite replace_go_same.
Qed.

(** On no option at all the sentence is not changed by [simplify_options]. *)
Lemma simplify_options_nil self (sent : string) :
  Trimmed (mask_token self) →
  simplify_options self sent [] = ([], sent, "", "").
Proof.
  intros Hm.
  change (simplify_options self sent [])
    with (@nil string,
          Str.replace (mask_token self)
            (Str.strip (" " +:+ mask_token self +:+ " ")) sent, "", "").
  rewrite StrFacts.strip_space_l, StrFacts.strip_space_r.
  by rewrite (StrFacts.strip_Trimmed _ Hm), replace_same.
Qed.

(** The parts of [split_on] are one more than the occurrences counted. *)
Lemma split_on_go_count sep s skip :
  length (Str.split_on_go sep skip s).2 = Str.count_go sep skip s.
Proof.
  revert skip. induction s as [|c s IH]; intros skip; [done|].
  cbn [Str.split_on_go Str.count_go].
  destruct skip as [|k]; [|apply IH].
  destruct (String.prefix sep (String c s)).
  - specialize (IH (String.length sep - 1)).
    destruct (Str.split_on_go sep (String.length sep - 1) s). simpl in *.
    by rewrite IH.
  - specialize (IH 0). by destruct (Str.split_on_go sep 0 s).
Qed.

(** A sentence has exactly one placeholder when [split] by the
    placeholder gives two parts. *)
Lemma one_placeholder_split self (sent : string) :
  Str.is_empty (mask_token self) = false →
  one_placeholder self sent
  ↔ ∃ pre post, Str.split_on (mask_token self) sent = Some [pre; post].
Proof.
  intros Hne. unfold one_placeholder, Str.count, Str.split_on. rewrite Hne.
  rewrite <- split_on_go_count.
  destruct (Str.split_on_go (mask_token self) 0 sent) as [w ws]. simpl.
  split.
  - destruct ws as [|post [|]]; [done| |done]. by exists w, post.
  - intros (pre & post & [= <- ->]). done.
Qed.

(** [fitb] is decided by what [rank] returns. *)
Lemma fitb_of_rank self (sent : string) (options : list string) lg :
  fitb self sent options lg
  = match rank self sent options lg with
    | (Ok [], l) => (Raise IndexError, l)
    | (Ok (best_word :: _), l) =>
        (Ok (Str.replace (mask_token self) best_word sent), l)
    | (Raise e, l) => (Raise e, l)
    end.
Proof.
  unfold fitb, bind. by destruct (rank self sent options lg) as [[[|? ?]|?] ?].
Qed.

(** The single-token ranker on no word at all. *)
Lemma rank_single_nil self (sent : string) lg :
  rank_single self sent [] lg
  = match Str.split_on (mask_token self) sent with
    | Some [pre; post] =>
        match bert_softmax self [single_row self pre post] with
        | Some _ => (Ok [], lg ++ [[single_row self pre post]])
        | None => (Raise OracleFailure, lg ++ [[single_row self pre post]])
        end
    | _ => (Raise ValueError, lg)
    end.
Proof.
  unfold rank_single.
  destruct (Str.split_on (mask_token self) sent) as [[|pre [|post [|]]]|];
    try done.
  unfold bind, call_model, convert_tokens_to_ids, single_row.
  rewrite <- !app_assoc.
  by destruct (bert_softmax self _).
Qed.

(** C8 as stated fails: with no option and one placeholder [rank] does not
    fail, it asks the model and returns the empty list; [fitb] fails, but
    after the model call. *)
Lemma rank_empty_options_counterexample :
  rank toy "I want ***mask***." [] [] = (Ok [], [[[5; 1; 4; 6; 1; 5]]])
  ∧ fitb toy "I want ***mask***." [] [] = (Raise IndexError, [[[5; 1; 4; 6; 1; 5]]])
  ∧ ¬ (∃ e, rank toy "I want ***mask***." [] [] = (Raise e, []))
  ∧ ¬ (∃ e, fitb toy "I want ***mask***." [] [] = (Raise e, [])).
Proof.
  split_and!; [reflexivity|reflexivity|by intros [e He]..].
Qed.

(** C8, amended: there is no check for an empty option list. With a
    placeholder that has no white space at its ends and a deduplicated
    option list that is empty, [rank] takes the single-token path: on a
    sentence with exactly one placeholder it calls the model once, with the
    sequence of the sentence, and returns the empty list, on which [fitb]
    raises [IndexError] after that call; a failure of the model is passed
    on; on any other sentence both raise [ValueError] before any call. *)
Theorem rank_empty_options self (sent : string) (options : list string) lg :
  Trimmed (mask_token self) →
  distinct options = [] →
  match Str.split_on (mask_token self) sent with
  | Some [pre; post] =>
      let call := [single_row self pre post] in
      match bert_softmax self call with
      | Some _ =>
          rank self sent options lg = (Ok [], lg ++ [call])
          ∧ fitb self sent options lg = (Raise IndexError, lg ++ [call])
      | None =>
          rank self sent options lg = (Raise OracleFailure, lg ++ [call])
          ∧ fitb self sent options lg = (Raise OracleFailure, lg ++ [call])
      end
  | _ =>
      rank self sent options lg = (Raise ValueError, lg)
      ∧ fitb self sent options lg = (Raise ValueError, lg)
  end.
Proof.
  intros Hm Hd.
  assert (Hrank : rank self sent options lg
                  = bind (rank_single self sent [])
                      (λ ranked, ret ((λ x, Str.strip (make_string " " [""; x; ""]))
                                        <$> ranked)) lg).
  { unfold rank. rewrite Hd.
    change (Nat.eqb (length (@nil string)) 1) with false. cbv iota.
    by rewrite simplify_options_nil. }
  rewrite fitb_of_rank, Hrank. unfold bind. rewrite rank_single_nil.
  destruct (Str.split_on (mask_token self) sent) as [[|pre [|post [|]]]|];
    try done.
  by destruct (bert_softmax self [single_row self pre post]).
Qed.

Lemma rank_empty_options_witness :
  rank toy "I want ***mask***." [] [[[7]]]
  = (Ok [], [[[7]]; [[5; 1; 4; 6; 1; 5]]])
  ∧ fitb toy "I want ***mask***." [] [[[7]]]
    = (Raise IndexError, [[[7]]; [[5; 1; 4; 6; 1; 5]]]).
Proof.
  apply (rank_empty_options toy "I want ***mask***." [] [[[7]]]).
  - by split_and!.
  - reflexivity.
Defined.

(** ** C6 *)

(** C6: [rank] works on the deduplicated options and on nothing else of
    them. The deduplicated list holds every string of the options once, in
    the order of the options, each at the place of its first occurrence:
    before it stand exactly the strings that occur before that occurrence.
    [rank] returns on the options what it returns on that list; for one
    distinct string the result is that list, and otherwise it is the
    simplified strings of that list, taken in its order, sorted by their
    scores and put back between the common words. *)
Theorem rank_deduplicates self (sent : string) (options : list string) :
  let d := distinct options in
  NoDup d
  ∧ (∀ x, x ∈ d ↔ x ∈ options)
  ∧ d `sublist_of` options
  ∧ (∀ l1 x l2, options = l1 ++ x :: l2 → x ∉ l1 →
       ∃ d1 d2, d = d1 ++ x :: d2 ∧ ∀ y, y ∈ d1 ↔ y ∈ l1)
  ∧ (∀ lg, rank self sent options lg = rank self sent d lg)
  ∧ ∀ lg r lg',
      rank self sent options lg = (Ok r, lg') →
      if Nat.eqb (length d) 1 then r = d ∧ lg' = lg
      else
        let '(options', sent', start_words, end_words) :=
          simplify_options self sent d in
        ∃ scores,
          scored_by self (is_multi options') sent' options' scores
          ∧ r = reattach start_words end_words <$> by_score self scores options'.
Proof.
  intros d. split_and!.
  - apply NoDup_distinct.
  - apply elem_of_distinct.
  - apply distinct_go_sublist.
  - intros l1 x l2 -> Hx.
    destruct (distinct_before_first l1 x l2 Hx) as [k Hk].
    exists (distinct l1), k. split; [done|]. apply elem_of_distinct.
  - intros lg. unfold rank. fold d.
    by rewrite (distinct_NoDup d) by apply NoDup_distinct.
  - intros lg r lg' Hrank.
    destruct (Nat.eqb_spec (length d) 1) as [Hone|Hmore].
    { unfold rank in Hrank. fold d in Hrank. rewrite Hone in Hrank.
      by injection Hrank as <- <-. }
    destruct (rank_unfold _ _ _ _ _ _ Hrank Hmore)
      as (options' & sent' & sw & ew & ranked & Hsimp & Hranker & ->).
    fold d in Hsimp. rewrite Hsimp.
    apply ranker_scores in Hranker as (scores & Hsc & _ & ->).
    by exists scores.
Qed.

Lemma rank_deduplicates_witness :
  rank toy "I want ***mask***." ["to eat"; "to drink"; "to eat"; "to sleep"] []
  = rank toy "I want ***mask***." ["to eat"; "to drink"; "to sleep"] []
  ∧ ∃ scores,
      scored_by toy false "I want to ***mask***." ["eat"; "drink"; "sleep"] scores
      ∧ ["to drink"; "to sleep"; "to eat"]
        = reattach "to" "" <$> by_score toy scores ["eat"; "drink"; "sleep"].
Proof.
  pose proof (rank_deduplicates toy "I want ***mask***."
                ["to eat"; "to drink"; "to eat"; "to sleep"])
    as (_ & _ & _ & _ & Hsame & Hres).
  split; [apply Hsame|].
  apply (Hres [] ["to drink"; "to sleep"; "to eat"] [[[5; 1; 4; 2; 6; 1; 5]]]).
  reflexivity.
Defined.

(** * Further properties of the code *)

(** ** More facts about the [str] methods *)

Lemma split_go_no_space w :
  no_space w = true → Str.split_go w = (w, []).
Proof.
  induction w as [|c w IH]; [done|]. simpl. intros [Hc Hw]%andb_prop.
  rewrite (IH Hw). by destruct (Str.is_space c).
Qed.

Lemma split_go_word w s :
  no_space w = true →
  Str.split_go (w +:+ s) = ((w +:+ (Str.split_go s).1), (Str.split_go s).2).
Proof.
  induction w as [|c w IH]; intros Hw.
  - rewrite !StrFacts.sapp_nil_l. by destruct (Str.split_go s).
  - simpl in Hw. apply andb_prop in Hw as [Hc Hw].
    rewrite StrFacts.sapp_cons. cbn [Str.split_go]. rewrite (IH Hw).
    destruct (Str.is_space c); [done|]. by rewrite StrFacts.sapp_cons.
Qed.

(** Splitting words joined by single spaces gives the words back. *)
Lemma split_join l : Forall Solid l → Str.split (Str.join " " l) = l.
Proof.
  induction l as [|x l IH]; intros Hl; [done|].
  apply Forall_cons in Hl as [[Hne Hx] Hl].
  destruct l as [|y l].
  - unfold Str.split. cbn [Str.join]. rewrite (split_go_no_space x Hx).
    unfold Str.push_word. by rewrite Hne.
  - specialize (IH Hl). rewrite StrFacts.join_cons by done.
    unfold Str.split in *. rewrite (split_go_word x _ Hx).
    change (" " +:+ Str.join " " (y :: l)) with (String " " (Str.join " " (y :: l))).
    cbn [Str.split_go].
    destruct (Str.split_go (Str.join " " (y :: l))) as [w ws].
    change (Str.is_space " ") with true. cbn [fst snd].
    rewrite StrFacts.sapp_nil_r, IH. unfold Str.push_word. by rewrite Hne.
Qed.

Lemma replace_go_absent old new s skip :
  Str.count_go old skip s = 0 → Str.replace_go old new skip s = sdrop skip s.
Proof.
  revert skip. induction s as [|c s IH]; intros skip; [by destruct skip|].
  cbn [Str.count_go Str.replace_go sdrop].
  destruct skip as [|k]; [|apply IH].
  destruct (String.prefix old (String c s)); [done|].
  intros Hc. by rewrite (IH 0 Hc).
Qed.

(** Without an occurrence of [old] nothing is replaced. *)
Lemma replace_absent old new s :
  Str.count old s = 0 → Str.replace old new s = s.
Proof.
  unfold Str.count, Str.replace.
  destruct (Str.is_empty old); [done|]. apply replace_go_absent.
Qed.

(** ** More facts about the methods *)

Lemma traverse_keeps_log {A B} (f : A → M B) l lg :
  (∀ x a, (f x a).2 = a) → (traverse f l lg).2 = lg.
Proof.
  intros Hf. revert lg. induction l as [|x l IH]; intros lg; [done|].
  simpl. unfold bind. specialize (Hf x lg).
  destruct (f x lg) as [[y|e] l1]; simpl in Hf; subst; [|done].
  specialize (IH lg). by destruct (traverse f l lg) as [[ys|e] l2].
Qed.

Lemma word_score_log self probs t w lg : (word_score self probs t w lg).2 = lg.
Proof.
  unfold word_score. by destruct (convert_tokens_to_ids self (tokenize self w)).
Qed.

Lemma word_scores_ok self probs t (words : list string) lg :
  Forall (λ w, tokenize self w ≠ []) words →
  ∃ scores, traverse (word_score self probs t) words lg = (Ok scores, lg)
            ∧ length scores = length words.
Proof.
  induction 1 as [|w words Hw _ (scores & IH & Hlen)]; [by exists []|].
  simpl. unfold bind, word_score at 1, convert_tokens_to_ids.
  destruct (tokenize self w) as [|tk tks]; [done|].
  rewrite fmap_cons. unfold ret at 1. rewrite IH.
  eexists. split; [done|]. simpl. by rewrite Hlen.
Qed.

Lemma word_scores_fail self probs t (words : list string) lg :
  Exists (λ w, tokenize self w = []) words →
  traverse (word_score self probs t) words lg = (Raise IndexError, lg).
Proof.
  induction words as [|w words IH]; intros Hex; [by apply Exists_nil in Hex|].
  simpl. unfold bind, word_score at 1, convert_tokens_to_ids.
  destruct (tokenize self w) as [|tk tks] eqn:Hw; [done|].
  rewrite fmap_cons. unfold ret at 1.
  apply Exists_cons in Hex as [Hex|Hex]; [congruence|].
  by rewrite (IH Hex).
Qed.

(** [rank_single] on a sentence that splits in two at the placeholder. *)
Lemma rank_single_split self (sent : string) (words : list string) lg pre post :
  Str.split_on (mask_token self) sent = Some [pre; post] →
  rank_single self sent words lg
  = match bert_softmax self [single_row self pre post] with
    | Some probs =>
        match traverse (word_score self probs (S (length (tokenize self pre))))
                words (lg ++ [[single_row self pre post]]) with
        | (Ok scores, l) => (Ok (by_score self scores words), l)
        | (Raise e, l) => (Raise e, l)
        end
    | None => (Raise OracleFailure, lg ++ [[single_row self pre post]])
    end.
Proof.
  intros Hs. unfold rank_single. rewrite Hs.
  unfold bind, call_model, convert_tokens_to_ids, single_row.
  rewrite <- !app_assoc. by destruct (bert_softmax self _).
Qed.

(** [get_sentence_probability] written out: one call, on the batch of
    the masked rows. *)
Lemma get_sentence_probability_eq self (sent : string) lg :
  get_sentence_probability self sent lg
  = (match bert_softmax self (sentence_batch self sent) with
     | Some probs =>
         Ok (foldl (prob_mul self) (prob_one self)
               (imap (λ i t, probs i (i + 1) (vocab self t)) (tokenize self sent)))
     | None => Raise OracleFailure
     end,
     lg ++ [sentence_batch self sent]).
Proof.
  unfold get_sentence_probability, bind, sentence_batch.
  rewrite masked_rows_traverse. unfold call_model.
  destruct (bert_softmax self _); [|done].
  unfold ret, convert_tokens_to_ids. by rewrite imap_fmap.
Qed.

(** A run of [get_sentence_probability] over texts: the calls made are a
    prefix of the batches of the texts, all of them on success, and the
    only exception is the failure of the model. *)
Lemma traverse_sentence_probability self {A} (g : A → string) (l : list A) lg :
  match traverse (λ x, get_sentence_probability self (g x)) l lg with
  | (Ok scores, lg') =>
      length scores = length l
      ∧ lg' = lg ++ ((λ x, sentence_batch self (g x)) <$> l)
  | (Raise e, lg') =>
      e = OracleFailure
      ∧ ∃ n, n < length l
             ∧ lg' = lg ++ ((λ x, sentence_batch self (g x)) <$> take (S n) l)
  end.
Proof.
  revert lg. induction l as [|x l IH]; intros lg.
  { simpl. by rewrite app_nil_r. }
  cbn [traverse]. unfold bind at 1. rewrite get_sentence_probability_eq.
  destruct (bert_softmax self (sentence_batch self (g x))) as [probs|].
  - unfold bind. specialize (IH (lg ++ [sentence_batch self (g x)])).
    destruct (traverse _ l _) as [[scores|e] lg'].
    + destruct IH as [Hlen ->]. unfold ret. split; [simpl; lia|].
      by rewrite fmap_cons, <- app_assoc.
    + destruct IH as (-> & n & Hn & ->). split; [done|].
      exists (S n). split; [simpl; lia|].
      by rewrite firstn_cons, fmap_cons, <- app_assoc.
  - split; [done|]. exists 0. split; [simpl; lia|].
    by rewrite firstn_cons, take_0.
Qed.

Lemma traverse_ext {A B} (f g : A → M B) l lg :
  (∀ x a, x ∈ l → f x a = g x a) → traverse f l lg = traverse g l lg.
Proof.
  revert lg. induction l as [|x l IH]; intros lg Hfg; [done|].
  simpl. unfold bind. rewrite Hfg by left.
  destruct (g x lg) as [[y|e] l1]; [|done].
  rewrite IH; [done|]. intros. apply Hfg. by right.
Qed.

Lemma sort_stable_same_key {A K} (lt : K → K → bool) (key : A → K) k l :
  lt k k = false → Forall (λ x, key x = k) l → sort_stable lt key l = l.
Proof.
  intros Hirr. induction 1 as [|x l Hx Hl IH]; [done|].
  change (sort_stable lt key (x :: l))
    with (insert_stable lt key x (sort_stable lt key l)).
  rewrite IH.
  destruct Hl as [|y l Hy _]; [done|]. simpl. by rewrite Hx, Hy, Hirr.
Qed.

(** Words that all have the same score stay in their order. *)
Lemma by_score_same self s (words : list string) :
  prob_ltb self s s = false →
  by_score self (replicate (length words) s) words = words.
Proof.
  intros Hirr. unfold by_score, sorted.
  assert (Forall (λ p : prob self * string, p.1 = s)
            (zip (replicate (length words) s) words)) as Hall.
  { induction words as [|w words IH]; constructor; done. }
  rewrite (sort_stable_same_key _ _ s) by (done || by apply Forall_rev).
  rewrite rev_involutive, snd_zip; [done|]. by rewrite length_replicate.
Qed.

Lemma traverse_const {A B} (f : A → M B) (l : list A) lg y c :
  (∀ x a, x ∈ l → f x a = (Ok y, a ++ [c])) →
  traverse f l lg
  = (Ok (replicate (length l) y), lg ++ replicate (length l) c).
Proof.
  revert lg. induction l as [|x l IH]; intros lg Hf.
  { simpl. by rewrite app_nil_r. }
  simpl. unfold bind. rewrite Hf by left.
  rewrite IH by (intros; apply Hf; by right).
  unfold ret. by rewrite <- app_assoc.
Qed.

Lemma distinct_idemp `{Countable A} (l : list A) : distinct (distinct l) = distinct l.
Proof. apply distinct_NoDup, NoDup_distinct. Qed.

Lemma rank_single_not_one self (sent : string) (words : list string) lg :
  Str.is_empty (mask_token self) = false →
  ¬ one_placeholder self sent →
  rank_single self sent words lg = (Raise ValueError, lg).
Proof.
  intros Hne Hno. unfold rank_single.
  destruct (Str.split_on (mask_token self) sent)
    as [[|pre [|post [|]]]|] eqn:Hs; try done.
  destruct Hno. apply one_placeholder_split; eauto.
Qed.

(** ** X1: the placeholder check of [rank_single] *)

(** X1: with a non-empty placeholder, [rank_single] raises [ValueError]
    before any model call when the sentence does not hold the placeholder
    exactly once; when it does, the model is called exactly once, on the
    sequence of the sentence, whatever the outcome, and the outcome is not
    a [ValueError]. *)
Theorem rank_single_placeholder_check self (sent : string) (words : list string) lg :
  Str.is_empty (mask_token self) = false →
  (¬ one_placeholder self sent →
   rank_single self sent words lg = (Raise ValueError, lg))
  ∧ (one_placeholder self sent →
     ∃ pre post res,
       Str.split_on (mask_token self) sent = Some [pre; post]
       ∧ rank_single self sent words lg
         = (res, lg ++ [[single_row self pre post]])
       ∧ res ≠ Raise ValueError).
Proof.
  intros Hne. split.
  - by apply rank_single_not_one.
  - intros (pre & post & Hs)%one_placeholder_split; [|done].
    exists pre, post. rewrite (rank_single_split _ _ _ _ _ _ Hs).
    destruct (bert_softmax self _) as [probs|]; [|by eexists].
    pose proof (traverse_keeps_log
      (word_score self probs (S (length (tokenize self pre)))) words
      (lg ++ [[single_row self pre post]]) (word_score_log self probs _)) as Hlog.
    destruct (decide (Exists (λ w, tokenize self w = []) words)) as [Hex|Hall].
    + rewrite (word_scores_fail _ _ _ _ _ Hex). by eexists.
    + apply (not_Exists_Forall _) in Hall.
      destruct (word_scores_ok self probs (S (length (tokenize self pre)))
                  words (lg ++ [[single_row self pre post]])) as (sc & -> & _).
      { eapply Forall_impl; [exact Hall|]. done. }
      by eexists.
Qed.

Lemma rank_single_placeholder_check_witness :
  rank_single toy "I want nothing." ["eat"; "drink"] [] = (Raise ValueError, [])
  ∧ rank_single toy "I ***mask*** and ***mask***." ["eat"; "drink"] []
    = (Raise ValueError, []).
Proof.
  split.
  - apply (rank_single_placeholder_check toy); [reflexivity|]. by vm_compute.
  - apply (rank_single_placeholder_check toy); [reflexivity|]. by vm_compute.
Defined.

(** ** X2: words without a token in [rank_single] *)

(** X2: on a sentence that splits in two at the placeholder and a model
    that answers, [rank_single] raises [IndexError], after the model call,
    when a word has no token; when every word has one it returns a
    rearrangement of the words. *)
Theorem rank_single_words self (sent : string) (words : list string) lg
    pre post probs :
  Str.split_on (mask_token self) sent = Some [pre; post] →
  bert_softmax self [single_row self pre post] = Some probs →
  (Exists (λ w, tokenize self w = []) words →
   rank_single self sent words lg
   = (Raise IndexError, lg ++ [[single_row self pre post]]))
  ∧ (Forall (λ w, tokenize self w ≠ []) words →
     ∃ r, rank_single self sent words lg
          = (Ok r, lg ++ [[single_row self pre post]])
          ∧ r ≡ₚ words).
Proof.
  intros Hs Hb. rewrite (rank_single_split _ _ _ _ _ _ Hs), Hb. split.
  - intros Hex. by rewrite (word_scores_fail _ _ _ _ _ Hex).
  - intros Hall.
    destruct (word_scores_ok self probs (S (length (tokenize self pre)))
                words (lg ++ [[single_row self pre post]]) Hall)
      as (sc & -> & Hlen).
    eexists. split; [done|]. by apply by_score_perm.
Qed.

Lemma rank_single_words_witness :
  rank_single toy "I want ***mask***." ["eat"; ""] []
  = (Raise IndexError, [[[5; 1; 4; 6; 1; 5]]])
  ∧ ∃ r, rank_single toy "I want ***mask***." ["eat"; "drink"] []
         = (Ok r, [[[5; 1; 4; 6; 1; 5]]]) ∧ r ≡ₚ ["eat"; "drink"].
Proof.
  split.
  - apply (rank_single_words toy "I want ***mask***." ["eat"; ""] []
             "I want " "." (λ _ _ x, x)); [reflexivity..|].
    apply Exists_cons_tl, Exists_cons_hd. reflexivity.
  - apply (rank_single_words toy "I want ***mask***." ["eat"; "drink"] []
             "I want " "." (λ _ _ x, x)); [reflexivity..|].
    repeat constructor; discriminate.
Defined.

(** ** X3: the one call of [get_sentence_probability] *)

(** X3: for every text of [n] tokens [get_sentence_probability] calls the
    model exactly once, with [n] rows of [n + 2] ids, whether the model
    answers or not; it raises nothing but the failure of the model, and
    that exactly when the model fails on this batch. *)
Theorem get_sentence_probability_one_call self (sent : string) lg :
  let n := length (tokenize self sent) in
  ∃ res,
    get_sentence_probability self sent lg = (res, lg ++ [sentence_batch self sent])
    ∧ (∀ e, res = Raise e → e = OracleFailure)
    ∧ (res = Raise OracleFailure
       ↔ bert_softmax self (sentence_batch self sent) = None)
    ∧ length (sentence_batch self sent) = n
    ∧ Forall (λ row, length row = n + 2) (sentence_batch self sent).
Proof.
  intros n. rewrite get_sentence_probability_eq. eexists. split; [done|].
  split_and!.
  - intros e. destruct (bert_softmax self _); [done|]. by intros [= <-].
  - by destruct (bert_softmax self _).
  - unfold sentence_batch, masked_rows. apply length_imap.
  - apply Forall_forall. intros row (i & Hi)%list_elem_of_lookup.
    unfold sentence_batch, masked_rows in Hi.
    apply list_lookup_imap_Some in Hi as (t & _ & ->).
    rewrite length_fmap. simpl. rewrite length_app, length_insert. simpl.
    unfold n. lia.
Qed.

(** ** X4: the calls and the exceptions of [rank_multi] *)

(** The run over texts on all of which the model answers. *)
Lemma traverse_sentence_probability_ok self {A} (g : A → string) (l : list A) lg :
  Forall (λ x, is_Some (bert_softmax self (sentence_batch self (g x)))) l →
  ∃ scores,
    traverse (λ x, get_sentence_probability self (g x)) l lg
    = (Ok scores, lg ++ ((λ x, sentence_batch self (g x)) <$> l))
    ∧ length scores = length l.
Proof.
  intros Hall. revert lg.
  induction Hall as [|x l [probs Hx] _ IH]; intros lg.
  { exists []. simpl. by rewrite app_nil_r. }
  destruct (IH (lg ++ [sentence_batch self (g x)])) as (scores & Ht & Hlen).
  cbn [traverse]. unfold bind at 1.
  rewrite get_sentence_probability_eq, Hx. unfold bind. rewrite Ht.
  eexists. unfold ret.
  split; [by rewrite fmap_cons, <- app_assoc|simpl; by rewrite Hlen].
Qed.

(** The run stops at the first text on which the model fails. *)
Lemma traverse_sentence_probability_fail self {A} (g : A → string)
    (l1 l2 : list A) x lg :
  Forall (λ y, is_Some (bert_softmax self (sentence_batch self (g y)))) l1 →
  bert_softmax self (sentence_batch self (g x)) = None →
  traverse (λ y, get_sentence_probability self (g y)) (l1 ++ x :: l2) lg
  = (Raise OracleFailure,
     lg ++ ((λ y, sentence_batch self (g y)) <$> l1) ++ [sentence_batch self (g x)]).
Proof.
  intros Hall Hx. revert lg.
  induction Hall as [|y l1 [probs Hy] _ IH]; intros lg.
  - simpl. unfold bind. by rewrite get_sentence_probability_eq, Hx.
  - rewrite <- app_comm_cons. cbn [traverse]. unfold bind at 1.
    rewrite get_sentence_probability_eq, Hy. unfold bind. rewrite IH.
    by rewrite fmap_cons, <- !app_assoc.
Qed.

(** X4: [rank_multi] calls the model once for each option, in their
    order, on the sentence filled with the option. When the model answers
    on all of them it returns a rearrangement of the options; when it fails
    on one it stops there, with the failure of the model, after the call
    that failed and none further. So it never raises [ValueError] or
    [IndexError], whatever the sentence and the options. *)
Theorem rank_multi_calls self (sent : string) (options : list string) lg :
  let filled x := sentence_batch self (Str.replace (mask_token self) x sent) in
  (Forall (λ x, is_Some (bert_softmax self (filled x))) options →
   ∃ r, rank_multi self sent options lg = (Ok r, lg ++ (filled <$> options))
        ∧ r ≡ₚ options)
  ∧ (∀ l1 x l2,
       options = l1 ++ x :: l2 →
       Forall (λ y, is_Some (bert_softmax self (filled y))) l1 →
       bert_softmax self (filled x) = None →
       rank_multi self sent options lg
       = (Raise OracleFailure, lg ++ (filled <$> l1) ++ [filled x]))
  ∧ match rank_multi self sent options lg with
    | (Ok r, lg') => r ≡ₚ options ∧ lg' = lg ++ (filled <$> options)
    | (Raise e, lg') =>
        e = OracleFailure
        ∧ ∃ n, n < length options ∧ lg' = lg ++ (filled <$> take (S n) options)
    end.
Proof.
  intros filled. split_and!.
  - intros Hall.
    destruct (traverse_sentence_probability_ok self
                (λ x, Str.replace (mask_token self) x sent) options lg Hall)
      as (scores & Ht & Hlen).
    unfold rank_multi, bind. rewrite Ht. unfold ret.
    eexists. split; [done|]. by apply by_score_perm.
  - intros l1 x l2 -> Hall Hx. unfold rank_multi, bind.
    by rewrite (traverse_sentence_probability_fail self
                  (λ x, Str.replace (mask_token self) x sent) l1 l2 x lg Hall Hx).
  - unfold rank_multi, bind.
    pose proof (traverse_sentence_probability self
      (λ x, Str.replace (mask_token self) x sent) options lg) as Ht.
    destruct (traverse _ options lg) as [[scores|e] lg']; [|done].
    destruct Ht as [Hlen ->]. unfold ret. split; [|done].
    by apply by_score_perm.
Qed.

Lemma rank_multi_calls_witness :
  (∃ r, rank_multi flaky "He ***mask*** home." ["ran to"; "sat at"] []
        = (Ok r, [sentence_batch flaky "He ran to home.";
                  sentence_batch flaky "He sat at home."])
        ∧ r ≡ₚ ["ran to"; "sat at"])
  ∧ rank_multi flaky "He ***mask*** home." ["ran to"; "swimmer x"; "sat at"] []
    = (Raise OracleFailure,
       [sentence_batch flaky "He ran to home.";
        sentence_batch flaky "He swimmer x home."]).
Proof.
  split.
  - pose proof (rank_multi_calls flaky "He ***mask*** home." ["ran to"; "sat at"] [])
      as (Hok & _ & _).
    apply Hok.
    apply Forall_cons; split; [by eexists|].
    apply Forall_cons; split; [by eexists|]. apply Forall_nil_2.
  - pose proof (rank_multi_calls flaky "He ***mask*** home."
                  ["ran to"; "swimmer x"; "sat at"] []) as (_ & Hfail & _).
    apply (Hfail ["ran to"] "swimmer x" ["sat at"]).
    + reflexivity.
    + apply Forall_cons; split; [by eexists|]. apply Forall_nil_2.
    + reflexivity.
Defined.

(** ** X5: [rank_multi] on a sentence without placeholder *)

(** X5: on a sentence that does not contain the placeholder, when the
    model answers on the sentence and no score is below itself,
    [rank_multi] returns the options in the order they were given: every
    option is scored on the same, unfilled sentence. *)
Theorem rank_multi_without_placeholder self (sent : string)
    (options : list string) lg probs :
  Str.count (mask_token self) sent = 0 →
  (∀ x, prob_ltb self x x = false) →
  bert_softmax self (sentence_batch self sent) = Some probs →
  rank_multi self sent options lg
  = (Ok options, lg ++ replicate (length options) (sentence_batch self sent)).
Proof.
  intros Hc Hirr Hb. unfold rank_multi, bind.
  rewrite (traverse_ext _ (λ _, get_sentence_probability self sent))
    by (intros; by rewrite replace_absent).
  erewrite traverse_const; last first.
  { intros x a _. by rewrite get_sentence_probability_eq, Hb. }
  unfold ret. by rewrite by_score_same.
Qed.

Lemma rank_multi_without_placeholder_witness :
  rank_multi toy "He is home." ["ran to the"; "is"; "sat at"] []
  = (Ok ["ran to the"; "is"; "sat at"],
     replicate 3 (sentence_batch toy "He is home.")).
Proof.
  apply (rank_multi_without_placeholder toy "He is home."
           ["ran to the"; "is"; "sat at"] [] (λ _ _ x, x)).
  - reflexivity.
  - intros x. apply Nat.ltb_irrefl.
  - reflexivity.
Defined.

(** ** X6: the size of the ranking and the number of model calls *)

Lemma simplify_options_length self (sent : string) (options : list string) :
  length (simplify_options self sent options).1.1.1 = length options.
Proof. rewrite simplify_options_eq. apply length_fmap. Qed.

(** X6: when [rank] returns, it returns as many strings as there are
    distinct options, and it has called the model not at all for one
    distinct option, once on the single-token path, and once for each
    distinct option on the multi-token path. *)
Theorem rank_size_and_calls self (sent : string) (options : list string)
    lg r lg' :
  rank self sent options lg = (Ok r, lg') →
  length r = length (distinct options)
  ∧ ∃ calls,
      lg' = lg ++ calls
      ∧ length calls
        = if Nat.eqb (length (distinct options)) 1 then 0
          else if is_multi (simplify_options self sent (distinct options)).1.1.1
               then length (distinct options)
               else 1.
Proof.
  intros Hrank.
  destruct (Nat.eqb_spec (length (distinct options)) 1) as [Hone|Hmore].
  { unfold rank in Hrank. rewrite Hone in Hrank. injection Hrank as <- <-.
    split; [done|]. exists []. by rewrite app_nil_r. }
  destruct (rank_unfold _ _ _ _ _ _ Hrank Hmore)
    as (options' & sent' & sw & ew & ranked & Hsimp & Hranker & ->).
  pose proof (simplify_options_length self sent (distinct options)) as Hlen.
  rewrite Hsimp in *. cbn [fst] in *.
  destruct (ranker_scores _ _ _ _ _ _ _ Hranker) as (scores & Hsc & Hl & Hr).
  split.
  { rewrite length_fmap, Hr, (by_score_perm self scores options' Hl). done. }
  destruct (is_multi options'); simpl in Hranker, Hsc.
  - unfold rank_multi, bind in Hranker.
    pose proof (traverse_sentence_probability self
      (λ x, Str.replace (mask_token self) x sent') options' lg) as Ht.
    destruct (traverse _ options' lg) as [[sc|e] l1]; [|done].
    destruct Ht as [_ ->]. injection Hranker as _ <-.
    eexists. split; [done|]. by rewrite length_fmap.
  - destruct Hsc as (pre & post & probs & Hs & Hb & _).
    rewrite (rank_single_split _ _ _ _ _ _ Hs), Hb in Hranker.
    pose proof (traverse_keeps_log
      (word_score self probs (S (length (tokenize self pre)))) options'
      (lg ++ [[single_row self pre post]]) (word_score_log self probs _)) as Hlog.
    destruct (traverse _ options' _) as [[sc|e] l1]; [|done].
    simpl in Hlog. subst l1. injection Hranker as _ <-.
    by eexists.
Qed.

Lemma rank_size_and_calls_witness :
  rank toy "He ***mask*** home." ["is at"; "ran to"; "is at"] []
  = (Ok ["ran to"; "is at"],
     [sentence_batch toy "He is at home."; sentence_batch toy "He ran to home."])
  ∧ length ["ran to"; "is at"] = length (distinct ["is at"; "ran to"; "is at"]).
Proof.
  assert (rank toy "He ***mask*** home." ["is at"; "ran to"; "is at"] []
          = (Ok ["ran to"; "is at"],
             [sentence_batch toy "He is at home.";
              sentence_batch toy "He ran to home."])) as Hr by reflexivity.
  split; [exact Hr|].
  apply (rank_size_and_calls toy _ _ _ _ _ Hr).
Defined.

(** ** X7: duplicates of an option *)

Lemma distinct_later_duplicate `{Countable A} (l1 l2 : list A) x :
  x ∈ l1 → distinct (l1 ++ x :: l2) = distinct (l1 ++ l2).
Proof.
  intros Hx. unfold distinct. rewrite !distinct_go_app. simpl.
  destruct (decide (x ∈ ∅ ∪ list_to_set l1)) as [_|Hn]; [done|].
  destruct Hn. set_solver.
Qed.

(** X7: an option given again after its first occurrence changes
    nothing: [rank] and [fitb] return the same, after the same model calls,
    as without the repetition. *)
Theorem rank_later_duplicate self (sent : string) (l1 l2 : list string) x lg :
  x ∈ l1 →
  rank self sent (l1 ++ x :: l2) lg = rank self sent (l1 ++ l2) lg
  ∧ fitb self sent (l1 ++ x :: l2) lg = fitb self sent (l1 ++ l2) lg.
Proof.
  intros Hx.
  assert (rank self sent (l1 ++ x :: l2) lg = rank self sent (l1 ++ l2) lg) as Hr.
  { unfold rank. by rewrite (distinct_later_duplicate l1 l2 x Hx). }
  split; [done|]. by rewrite !fitb_of_rank, Hr.
Qed.

Lemma rank_later_duplicate_witness :
  rank toy "I want ***mask***." (["to eat"; "to drink"] ++ "to eat" :: ["to sleep"]) []
  = rank toy "I want ***mask***." (["to eat"; "to drink"] ++ ["to sleep"]) []
  ∧ fitb toy "I want ***mask***." (["to eat"; "to drink"] ++ "to eat" :: ["to sleep"]) []
    = fitb toy "I want ***mask***." (["to eat"; "to drink"] ++ ["to sleep"]) [].
Proof. apply rank_later_duplicate. left. Defined.

(** ** X10: when [fitb] fails *)

(** X10: [fitb] passes on what [rank] raises; when [rank] returns, [fitb]
    raises [IndexError] exactly for an empty option list, and otherwise
    returns the sentence with the placeholder replaced by the first string
    of the ranking. *)
Theorem fitb_outcome self (sent : string) (options : list string) lg :
  match rank self sent options lg with
  | (Ok r, lg') =>
      match options with
      | [] => fitb self sent options lg = (Raise IndexError, lg')
      | _ :: _ =>
          ∃ best rest,
            r = best :: rest
            ∧ fitb self sent options lg
              = (Ok (Str.replace (mask_token self) best sent), lg')
      end
  | (Raise e, lg') => fitb self sent options lg = (Raise e, lg')
  end.
Proof.
  rewrite fitb_of_rank.
  destruct (rank self sent options lg) as [[r|e] lg'] eqn:Hrank; [|done].
  assert (length r = length (distinct options)) as Hlen.
  { destruct (Nat.eqb_spec (length (distinct options)) 1) as [Hone|Hmore].
    { unfold rank in Hrank. rewrite Hone in Hrank. by injection Hrank as <- _. }
    destruct (rank_unfold _ _ _ _ _ _ Hrank Hmore)
      as (options' & sent' & sw & ew & ranked & Hsimp & Hranker & ->).
    pose proof (simplify_options_length self sent (distinct options)) as Hl.
    rewrite Hsimp in Hl. cbn [fst] in Hl.
    destruct (ranker_scores _ _ _ _ _ _ _ Hranker) as (scores & _ & Hl' & ->).
    by rewrite length_fmap, (by_score_perm self scores options' Hl'). }
  destruct options as [|o options].
  - by destruct r.
  - destruct r as [|best rest]; [|by eauto].
    assert (o ∈ distinct (o :: options)) as Hin by (apply elem_of_distinct; left).
    destruct (distinct (o :: options)); [by apply elem_of_nil in Hin|done].
Qed.

(** ** X11: a sentence without placeholder *)

(** X11: on a sentence that does not contain the (non-empty) placeholder,
    [fitb] returns the sentence unchanged whenever it returns; and with more
    than one distinct option on the single-token path [rank] and [fitb]
    raise [ValueError] before any model call. *)
Theorem fitb_without_placeholder self (sent : string) (options : list string) lg :
  Str.count (mask_token self) sent = 0 →
  Str.is_empty (mask_token self) = false →
  (∀ s lg', fitb self sent options lg = (Ok s, lg') → s = sent)
  ∧ (length (distinct options) ≠ 1 →
     is_multi (simplify_options self sent (distinct options)).1.1.1 = false →
     rank self sent options lg = (Raise ValueError, lg)
     ∧ fitb self sent options lg = (Raise ValueError, lg)).
Proof.
  intros Hc Hne. split.
  - intros s lg'. rewrite fitb_of_rank.
    destruct (rank self sent options lg) as [[[|best rest]|e] l]; try done.
    intros [= <- _]. by apply replace_absent.
  - intros Hmore Hsingle.
    assert (rank self sent options lg = (Raise ValueError, lg)) as Hr.
    { unfold rank. destruct (Nat.eqb_spec (length (distinct options)) 1); [done|].
      rewrite simplify_options_eq in *. cbn [fst] in Hsingle.
      unfold bind. rewrite Hsingle, replace_absent by done.
      rewrite rank_single_not_one; [done..|].
      unfold one_placeholder. by rewrite Hc. }
    split; [done|]. by rewrite fitb_of_rank, Hr.
Qed.

Lemma fitb_without_placeholder_witness :
  rank toy "I want nothing." ["to eat"; "to drink"] [] = (Raise ValueError, [])
  ∧ fitb toy "I want nothing." ["to eat"; "to drink"] [] = (Raise ValueError, []).
Proof.
  apply (fitb_without_placeholder toy "I want nothing." ["to eat"; "to drink"] []);
    [reflexivity|reflexivity|by vm_compute|reflexivity].
Defined.

(** ** X12: [guess_single] *)

(** X12: [guess_single] asks the model exactly what [rank_single] asks it
    for the same sentence, one call on the same sequence; it returns the
    token of the id that [argmax] picks at the masked position, passes on a
    failure of the model, never raises [IndexError], and raises
    [ValueError] before any call on the sentences on which [rank_single]
    does. *)
Theorem guess_single_query self argmax ids_to_tokens (sent : string)
    (words : list string) lg :
  match Str.split_on (mask_token self) sent with
  | Some [pre; post] =>
      let call := [single_row self pre post] in
      guess_single self argmax ids_to_tokens sent lg
      = (match bert_softmax self call with
         | Some probs =>
             Ok (ids_to_tokens
                   (argmax (probs 0 (S (length (tokenize self pre))))))
         | None => Raise OracleFailure
         end, lg ++ [call])
      ∧ (rank_single self sent words lg).2 = lg ++ [call]
  | _ =>
      guess_single self argmax ids_to_tokens sent lg = (Raise ValueError, lg)
      ∧ rank_single self sent words lg = (Raise ValueError, lg)
  end.
Proof.
  destruct (Str.split_on (mask_token self) sent)
    as [[|pre [|post [|]]]|] eqn:Hs;
    try (unfold guess_single, rank_single; by rewrite Hs).
  split.
  - unfold guess_single. rewrite Hs.
    unfold bind, call_model, convert_tokens_to_ids, single_row.
    rewrite <- !app_assoc. by destruct (bert_softmax self _).
  - rewrite (rank_single_split _ _ _ _ _ _ Hs).
    destruct (bert_softmax self _) as [probs|]; [|done].
    pose proof (traverse_keeps_log
      (word_score self probs (S (length (tokenize self pre)))) words
      (lg ++ [[single_row self pre post]]) (word_score_log self probs _)) as Hlog.
    by destruct (traverse _ words _) as [[sc|e] l1].
Qed.

Example guess_single_example :
  guess_single toy (λ f, 7) (λ i, if Nat.eqb i 7 then "swimmer" else "[UNK]")
    "She likes to ***mask***." []
  = (Ok "swimmer", [[[5; 3; 5; 2; 6; 1; 5]]]).
Proof. reflexivity. Qed.

(** ** X8: simplifying twice *)

Lemma fmap_ext_in {A B} (f g : A → B) (l : list A) :
  (∀ x, x ∈ l → f x = g x) → f <$> l = g <$> l.
Proof. intros Hfg. by apply Forall_fmap_ext_1, Forall_forall. Qed.

Section Simplified.
Variable options : list string.

Let start := common_start (Str.split <$> options).
Let end_ := common_start ((λ x, reverse (drop (length start) x))
                            <$> (Str.split <$> options)).
Let mid (o : string) : list string :=
  slice (length start) (length (Str.split o) - length end_) (Str.split o).

Lemma mid_parts o :
  o ∈ options → Str.split o = start ++ mid o ++ reverse end_.
Proof.
  intros Ho. apply (option_parts (Str.split <$> options)).
  apply list_elem_of_fmap. eauto.
Qed.

Lemma mid_solid o : o ∈ options → Forall Solid (mid o).
Proof.
  intros Ho. pose proof (StrFacts.split_solid o) as Hs.
  rewrite (mid_parts o Ho) in Hs.
  apply Forall_app in Hs as [_ Hs]. by apply Forall_app in Hs as [Hs _].
Qed.

Lemma start_solid o : o ∈ options → Forall Solid start ∧ Forall Solid (reverse end_).
Proof.
  intros Ho. pose proof (StrFacts.split_solid o) as Hs.
  rewrite (mid_parts o Ho) in Hs.
  apply Forall_app in Hs as [? Hs]. by apply Forall_app in Hs as [_ ?].
Qed.

(** The words kept of the options have no common first word. *)
Lemma mids_no_common_start : common_start (mid <$> options) = [].
Proof.
  destruct (common_start (mid <$> options)) as [|x q] eqn:Hq; [done|].
  exfalso.
  assert (start ++ [x] `prefix_of` start) as Hp.
  { apply common_start_longest.
    - destruct options; [done|]. by rewrite fmap_cons.
    - intros t (o & -> & Ho)%list_elem_of_fmap.
      rewrite (mid_parts o Ho). apply prefix_app.
      assert (x :: q `prefix_of` mid o) as [k Hk].
      { rewrite <- Hq. apply common_start_prefix, list_elem_of_fmap. eauto. }
      rewrite Hk. exists (q ++ k ++ reverse end_). by rewrite <- !app_assoc. }
  apply prefix_length in Hp. rewrite length_app in Hp. simpl in Hp. lia.
Qed.

(** The words kept of the options have no common last word. *)
Lemma mids_no_common_end : common_start (reverse <$> (mid <$> options)) = [].
Proof.
  destruct (common_start (reverse <$> (mid <$> options))) as [|x q] eqn:Hq;
    [done|].
  exfalso.
  assert (end_ ++ [x] `prefix_of` end_) as Hp.
  { apply common_start_longest.
    - destruct options; [done|]. by rewrite !fmap_cons.
    - intros t (t' & -> & (o & -> & Ho)%list_elem_of_fmap)%list_elem_of_fmap.
      rewrite (mid_parts o Ho), drop_app_length, reverse_app, reverse_involutive.
      apply prefix_app.
      assert (x :: q `prefix_of` reverse (mid o)) as [k Hk].
      { rewrite <- Hq. apply common_start_prefix, list_elem_of_fmap.
        exists (mid o). split; [done|]. apply list_elem_of_fmap. eauto. }
      rewrite Hk. by exists (q ++ k). }
  apply prefix_length in Hp. rewrite length_app in Hp. simpl in Hp. lia.
Qed.

(** The words of a simplified option are the words kept of the option. *)
Lemma split_simplified o :
  o ∈ options →
  Str.strip (make_string " " (mid o)) = Str.join " " (mid o)
  ∧ Str.split (Str.join " " (mid o)) = mid o.
Proof.
  intros Ho. pose proof (mid_solid o Ho). split.
  - by apply StrFacts.strip_join_words.
  - by apply split_join.
Qed.

End Simplified.

(** X8: nothing is left to strip after [simplify_options]: with a
    placeholder without white space at its ends, simplifying the simplified
    options in the simplified sentence returns them and the sentence as they
    are, with an empty start and an empty end. *)
Theorem simplify_options_idempotent self (sent : string) (options : list string) :
  Trimmed (mask_token self) →
  let '(options', sent', _, _) := simplify_options self sent options in
  simplify_options self sent' options' = (options', sent', "", "").
Proof.
  intros Hm. rewrite simplify_options_eq.
  pose proof (mids_no_common_start options) as Hstart.
  pose proof (mids_no_common_end options) as Hend.
  pose proof (split_simplified options) as Hwords.
  set (start := common_start (Str.split <$> options)) in *.
  set (end_ := common_start ((λ x, reverse (drop (length start) x))
                               <$> (Str.split <$> options))) in *.
  set (mid := λ o : string,
         slice (length start) (length (Str.split o) - length end_) (Str.split o))
    in *.
  set (sent' := Str.replace _ _ sent).
  assert (Hjoin : (λ o, Str.strip (make_string " " (mid o))) <$> options
                  = Str.join " " <$> (mid <$> options)).
  { rewrite <- list_fmap_compose.
    apply fmap_ext_in. intros o Ho. apply (Hwords o Ho). }
  assert (Hsplit : Str.split <$> (Str.join " " <$> (mid <$> options))
                   = mid <$> options).
  { rewrite <- !list_fmap_compose.
    apply fmap_ext_in. intros o Ho. apply (Hwords o Ho). }
  change (simplify_options self sent' ((λ o, Str.strip (make_string " " (mid o))) <$> options)
          = ((λ o, Str.strip (make_string " " (mid o))) <$> options, sent', "", "")).
  rewrite Hjoin, simplify_options_eq, Hsplit.
  rewrite Hstart.
  change (common_start ((λ x, reverse (drop (length (@nil string)) x))
                          <$> (mid <$> options)))
    with (common_start (reverse <$> (mid <$> options))).
  rewrite Hend.
  change (make_string " " (reverse [])) with "".
  change (make_string " " []) with "".
  change (make_string " " [""; mask_token self; ""])
    with (" " +:+ mask_token self +:+ " ").
  rewrite StrFacts.strip_space_l, StrFacts.strip_space_r.
  rewrite (StrFacts.strip_Trimmed _ Hm), replace_same.
  f_equal. f_equal. f_equal.
  rewrite <- list_fmap_compose.
  rewrite <- (list_fmap_id (mid <$> options)) at 2.
  rewrite <- !list_fmap_compose.
  apply fmap_ext_in. intros o Ho. unfold compose.
  destruct (Hwords o Ho) as [Hstrip Hsp].
  rewrite Hsp. unfold slice. rewrite drop_0, !Nat.sub_0_r, firstn_all.
  exact Hstrip.
Qed.

Lemma simplify_options_idempotent_witness :
  simplify_options toy "Take a ***mask*** car now." ["red"; ""; "blue"]
  = (["red"; ""; "blue"], "Take a ***mask*** car now.", "", "").
Proof.
  apply (simplify_options_idempotent toy "Take ***mask*** now."
           ["a red car"; "a car"; "a blue car"]).
  by split_and!.
Defined.

(** ** X9: putting the common words back *)

Lemma join_solid_Trimmed l : l ≠ [] → Forall Solid l → Trimmed (Str.join " " l).
Proof.
  intros Hne Hl. apply StrFacts.join_Trimmed; [done|].
  eapply Forall_impl; [done|]. apply StrFacts.Solid_Trimmed.
Qed.

(** X9: for the option at any place of the list given to
    [simplify_options], putting the common start and end back around its
    simplified form, as [rank] does, gives the words of the option joined
    by single spaces; except that an option made of the common start and
    the common end alone, both non-empty, comes back with two spaces
    between them. *)
Theorem reattach_option self (sent : string) (options : list string) i o :
  options !! i = Some o →
  let '(options', _, sw, ew) := simplify_options self sent options in
  ∃ o', options' !! i = Some o'
        ∧ reattach sw ew o'
          = if decide (o' = "" ∧ sw ≠ "" ∧ ew ≠ "")
            then sw +:+ "  " +:+ ew
            else make_string " " (Str.split o).
Proof.
  intros Hi. rewrite simplify_options_eq.
  assert (o ∈ options) as Ho by (by eapply list_elem_of_lookup_2).
  pose proof (mid_parts options o Ho) as Hparts.
  pose proof (mid_solid options o Ho) as Hmid.
  pose proof (start_solid options o Ho) as [Hstart Hend].
  set (start := common_start (Str.split <$> options)) in *.
  set (end_ := common_start ((λ x, reverse (drop (length start) x))
                               <$> (Str.split <$> options))) in *.
  set (mid := slice (length start) (length (Str.split o) - length end_)
                    (Str.split o)) in *.
  exists (Str.strip (make_string " " mid)).
  split; [by rewrite list_lookup_fmap, Hi|].
  unfold reattach, make_string.
  rewrite (StrFacts.strip_join_words mid Hmid).
  destruct (decide _) as [(He & Hs & Hw)|Hn].
  - assert (mid = []) as Hnil.
    { apply StrFacts.join_words_empty; [done|]. by rewrite He. }
    assert (start ≠ []) as Hs' by (by intros Hz; rewrite Hz in Hs).
    assert (reverse end_ ≠ []) as Hw' by (by intros Hz; rewrite Hz in Hw).
    rewrite Hnil.
    change (Str.join " " [Str.join " " start; Str.join " " []; Str.join " " (reverse end_)])
      with (Str.join " " start +:+ "  " +:+ Str.join " " (reverse end_)).
    apply StrFacts.strip_Trimmed, StrFacts.Trimmed_app; by apply join_solid_Trimmed.
  - rewrite StrFacts.rejoin; [by rewrite <- Hparts|done..|].
    destruct (decide (start = [])) as [|Hs]; [by left|].
    destruct (decide (reverse end_ = [])) as [|Hw]; [by right; left|].
    right; right. intros Hnil. apply Hn. rewrite Hnil. split_and!; [done| |].
    + intros Hz. destruct (join_solid_Trimmed start Hs Hstart) as [Hne _].
      by rewrite Hz in Hne.
    + intros Hz. destruct (join_solid_Trimmed (reverse end_) Hw Hend) as [Hne _].
      by rewrite Hz in Hne.
Qed.

Lemma reattach_option_witness :
  reattach "a" "car" "" = "a  car" ∧ reattach "a" "car" "blue" = "a blue car".
Proof.
  split.
  - pose proof (reattach_option toy "Take ***mask*** now."
                  ["a red car"; "a car"; "a   blue car"] 1 "a car" eq_refl) as H.
    change (simplify_options toy "Take ***mask*** now."
              ["a red car"; "a car"; "a   blue car"])
      with (["red"; ""; "blue"], "Take a ***mask*** car now.", "a", "car") in H.
    destruct H as (o' & Ho & Hr). injection Ho as <-. exact Hr.
  - pose proof (reattach_option toy "Take ***mask*** now."
                  ["a red car"; "a car"; "a   blue car"] 2 "a   blue car" eq_refl)
      as H.
    change (simplify_options toy "Take ***mask*** now."
              ["a red car"; "a car"; "a   blue car"])
      with (["red"; ""; "blue"], "Take a ***mask*** car now.", "a", "car") in H.
    destruct H as (o' & Ho & Hr). injection Ho as <-. exact Hr.
Defined.

(** ** X13: no white space around the ranked strings *)

Lemma lstrip_idemp s : Str.lstrip (Str.lstrip s) = Str.lstrip s.
Proof.
  induction s as [|c s IH]; [done|]. simpl.
  destruct (Str.is_space c) eqn:Hc; [done|]. simpl. by rewrite Hc.
Qed.

Lemma rstrip_idemp s : Str.rstrip (Str.rstrip s) = Str.rstrip s.
Proof.
  induction s as [|c s IH]; [done|]. simpl.
  destruct (Str.is_space c && Str.is_empty (Str.rstrip s)) eqn:Hc; [done|].
  simpl. by rewrite IH, Hc.
Qed.

Lemma rstrip_lstrip s : Str.rstrip s = s → Str.rstrip (Str.lstrip s) = Str.lstrip s.
Proof.
  induction s as [|c s IH]; [done|]. intros Hr. simpl.
  destruct (Str.is_space c) eqn:Hc; [|done].
  apply IH. simpl in Hr. rewrite Hc in Hr.
  destruct (Str.is_empty (Str.rstrip s)); [done|]. by injection Hr.
Qed.

(** [strip] leaves a stripped string alone. *)
Lemma strip_idemp s : Str.strip (Str.strip s) = Str.strip s.
Proof.
  unfold Str.strip.
  by rewrite (rstrip_lstrip (Str.rstrip s)), lstrip_idemp by apply rstrip_idemp.
Qed.

(** X13: past the short cut for one distinct option, every string [rank]
    returns is stripped: it has no white space at its start or at its
    end, whatever white space the options came with. *)
Theorem rank_stripped self (sent : string) (options : list string) lg r lg' :
  length (distinct options) ≠ 1 →
  rank self sent options lg = (Ok r, lg') →
  Forall (λ x, Str.strip x = x) r.
Proof.
  intros Hmore Hrank.
  destruct (rank_unfold _ _ _ _ _ _ Hrank Hmore)
    as (options' & sent' & sw & ew & ranked & _ & _ & ->).
  apply Forall_fmap, Forall_forall. intros x _. apply strip_idemp.
Qed.

Lemma rank_stripped_witness :
  rank toy "I want ***mask***." ["  to eat "; "to   drink"] []
  = (Ok ["to drink"; "to eat"], [[[5; 1; 4; 2; 6; 1; 5]]])
  ∧ Forall (λ x, Str.strip x = x) ["to drink"; "to eat"].
Proof.
  assert (rank toy "I want ***mask***." ["  to eat "; "to   drink"] []
          = (Ok ["to drink"; "to eat"], [[[5; 1; 4; 2; 6; 1; 5]]])) as Hr
    by reflexivity.
  split; [exact Hr|].
  eapply (rank_stripped toy); [|exact Hr]. vm_compute. discriminate.
Defined.
